(** * Lambda arguments of the Concrete compiler

    A shallow embedding of
    [compiler/include/concretelang/Support/LambdaArgument.h]: the scalar,
    encrypted scalar and tensor argument classes, the overflow-checked
    multiplication used to count tensor elements, the RTTI hierarchy the
    classes are registered in, and the resolver of type names.

    Integers are mathematical integers ([Z]) with the conversions of C++
    written out; the target is LP64 ([int] has 32 bits, [size_t] 64).
    Operations whose behaviour the C++ standard leaves undefined (division
    by zero, a shift count outside the width of [int]) are made explicit
    results of the model rather than given an arbitrary value. *)

From Stdlib Require Import ZArith List String Bool Lia.
Import ListNotations.
Local Open Scope Z_scope.

(** ** Fundamental integer types *)

(** The eight backing types [NameOfFundamentalType] is specialised for. *)
Inductive FundamentalType : Type :=
| uint8_t | int8_t | uint16_t | int16_t
| uint32_t | int32_t | uint64_t | int64_t.

Definition sizeof (T : FundamentalType) : Z :=
  match T with
  | uint8_t | int8_t => 1
  | uint16_t | int16_t => 2
  | uint32_t | int32_t => 4
  | uint64_t | int64_t => 8
  end.

Definition is_signed (T : FundamentalType) : bool :=
  match T with
  | int8_t | int16_t | int32_t | int64_t => true
  | uint8_t | uint16_t | uint32_t | uint64_t => false
  end.

Definition FundamentalType_eqb (T U : FundamentalType) : bool :=
  (sizeof T =? sizeof U) && Bool.eqb (is_signed T) (is_signed U).

(** [std::numeric_limits<T>::min()] and [max()]. *)
Definition numeric_limits_min (T : FundamentalType) : Z :=
  if is_signed T then - 2 ^ (8 * sizeof T - 1) else 0.

Definition numeric_limits_max (T : FundamentalType) : Z :=
  if is_signed T then 2 ^ (8 * sizeof T - 1) - 1 else 2 ^ (8 * sizeof T) - 1.

Definition representable (T : FundamentalType) (z : Z) : Prop :=
  numeric_limits_min T <= z <= numeric_limits_max T.

(** Conversion of an integer to a [w]-bit unsigned or signed type: the
    value modulo [2^w], read in two's complement for a signed target. *)
Definition to_unsigned (w z : Z) : Z := z mod 2 ^ w.

Definition to_signed (w z : Z) : Z :=
  (z + 2 ^ (w - 1)) mod 2 ^ w - 2 ^ (w - 1).

Definition convert (T : FundamentalType) (z : Z) : Z :=
  if is_signed T then to_signed (8 * sizeof T) z
  else to_unsigned (8 * sizeof T) z.

(** Integral promotion: types narrower than [int] are promoted to [int]. *)
Definition promote (T : FundamentalType) : FundamentalType :=
  if sizeof T <? 4 then int32_t else T.

(** The usual arithmetic conversions on two promoted operand types. *)
Definition common_type (T U : FundamentalType) : FundamentalType :=
  let P := promote T in
  let Q := promote U in
  if Bool.eqb (is_signed P) (is_signed Q) then
    if sizeof P <? sizeof Q then Q else P
  else if is_signed P then
    if sizeof P <=? sizeof Q then Q else P
  else
    if sizeof Q <=? sizeof P then P else Q.

(** [x == y] and [x != y] on operands of types [T] and [U]. *)
Definition cxx_eq (T U : FundamentalType) (x y : Z) : bool :=
  convert (common_type T U) x =? convert (common_type T U) y.

Definition cxx_ne (T U : FundamentalType) (x y : Z) : bool :=
  negb (cxx_eq T U x y).

(** ** Results of fallible operations *)

(** The one error of the file, built by [StreamStringError]:
    "Multiplying value <accu> with <factor> would cause an overflow". *)
Inductive Error : Type :=
| OverflowError (accu factor : Z).

(** What a call does: it returns a value, returns an [llvm::Error], or
    executes an operation with undefined behaviour. *)
Inductive Outcome (A : Type) : Type :=
| Ok (a : A)
| Err (e : Error)
| UndefinedBehaviour.

Arguments Ok {A} a.
Arguments Err {A} e.
Arguments UndefinedBehaviour {A}.

Definition bind {A B : Type} (m : Outcome A) (k : A -> Outcome B) : Outcome B :=
  match m with
  | Ok a => k a
  | Err e => Err e
  | UndefinedBehaviour => UndefinedBehaviour
  end.

Notation "x <- m ;; k" := (bind m (fun x => k))
  (at level 61, m at next level, right associativity).

(** [1 << e2] with the [int] literal [1] as left operand and a
    non-negative count: undefined from 32 on; a count of 31 sets the
    sign bit. *)
Definition shl_one (e2 : Z) : Outcome Z :=
  if e2 <? 31 then Ok (2 ^ e2)
  else if e2 =? 31 then Ok (- 2 ^ 31)
  else UndefinedBehaviour.

(** ** Overflow-checked multiplication *)

(** [safeUnsignedMul(accu, factor)] for an accumulator type of [w] bits.
    The accumulator is passed by reference: the model returns its new
    value on success. The quotient [max / accu] is computed first, with
    no test on [accu]. Both operands are unsigned, so the conversions
    applied before [left > factor] and before the multiplication keep
    their values, and the product is reduced to the accumulator type. *)
Definition safeUnsignedMul (w : Z) (accu factor : Z) : Outcome Z :=
  if accu =? 0 then UndefinedBehaviour
  else
    let left := (2 ^ w - 1) / accu in
    if left >? factor then Ok ((accu * factor) mod 2 ^ w)
    else Err (OverflowError accu factor).

Definition size_t_bits : Z := 64.
Definition unsigned_int_bits : Z := 32.

(** ** Scalar arguments *)

Module IntLambdaArgument.

(** The members of [IntLambdaArgument<BackingIntType>]. *)
Record t (BackingIntType : FundamentalType) : Type :=
  mk { precision : Z; value : Z }.

Arguments mk {BackingIntType} precision value.
Arguments precision {BackingIntType} _.
Arguments value {BackingIntType} _.

(** The constructor. [precision] is an [unsigned int], so
    [precision - 1] wraps at [2^32]; the mask is the [int] expression
    [1 << (precision - 1)], and the conjunction is converted back to
    the backing type. *)
Definition ctor (T : FundamentalType) (value : Z) (precision : Z)
  : Outcome (t T) :=
  if precision <? 8 * sizeof T then
    mask <- shl_one ((precision - 1) mod 2 ^ unsigned_int_bits) ;;
    Ok (mk precision (convert T (Z.land value mask)))
  else Ok (mk precision value).

(** The default argument [precision = 8 * sizeof(BackingIntType)]. *)
Definition ctor_default (T : FundamentalType) (value : Z) : Outcome (t T) :=
  ctor T value (8 * sizeof T).

Definition getPrecision {T} (a : t T) : Z := precision a.
Definition getValue {T} (a : t T) : Z := value a.

Definition operator_eq {T U} (a : t T) (b : t U) : bool :=
  cxx_eq T U (getValue a) (getValue b).

Definition operator_ne {T U} (a : t T) (b : t U) : bool :=
  negb (operator_eq a b).

End IntLambdaArgument.

(** The two scalar class templates a tensor can be instantiated with.
    [EIntLambdaArgument<T>] adds no member to [IntLambdaArgument<T>]. *)
Inductive ScalarArgumentT : Type :=
| IntLambdaArgumentT (T : FundamentalType)
| EIntLambdaArgumentT (T : FundamentalType).

(** [ScalarArgumentT::value_type]. *)
Definition value_type (Sc : ScalarArgumentT) : FundamentalType :=
  match Sc with
  | IntLambdaArgumentT T => T
  | EIntLambdaArgumentT T => T
  end.

(** ** Tensor arguments *)

(** [std::copy(first, last, std::back_inserter(dst))]: one [push_back]
    per element of the source. *)
Definition copy_back_inserter {A : Type} (src dst : list A) : list A :=
  fold_left (fun acc x => acc ++ [x]) src dst.

(** [operator!=] of [std::vector<int64_t>], negated. *)
Fixpoint vector_eqb (xs ys : list Z) : bool :=
  match xs, ys with
  | [], [] => true
  | x :: xs', y :: ys' => (x =? y) && vector_eqb xs' ys'
  | _, _ => false
  end.

(** The loop over [llvm::zip(value, other.value)]: it runs to the end of
    the shorter range and leaves at the first pair that differs. *)
Fixpoint zip_all_equal (T U : FundamentalType) (xs ys : list Z) : bool :=
  match xs, ys with
  | x :: xs', y :: ys' =>
      if cxx_ne T U x y then false else zip_all_equal T U xs' ys'
  | _, _ => true
  end.

Module TensorLambdaArgument.

(** The members of [TensorLambdaArgument<ScalarArgumentT>]. *)
Record t (Sc : ScalarArgumentT) : Type :=
  mk { value : list Z; dimensions : list Z }.

Arguments mk {Sc} value dimensions.
Arguments value {Sc} _.
Arguments dimensions {Sc} _.

(** Construction from an [ArrayRef]: the dimensions are copied and the
    values appended one by one to the empty member vector. *)
Definition ctor_copy (Sc : ScalarArgumentT) (value dimensions : list Z)
  : t Sc :=
  mk (copy_back_inserter value []) dimensions.

(** Construction from an rvalue vector, which is moved into place. *)
Definition ctor_move (Sc : ScalarArgumentT) (value dimensions : list Z)
  : t Sc :=
  mk value dimensions.

(** The one-dimensional constructor delegates to [ctor_copy] with the
    size of the array converted to [int64_t]. *)
Definition ctor_1d (Sc : ScalarArgumentT) (value : list Z) : t Sc :=
  ctor_copy Sc value [convert int64_t (Z.of_nat (List.length value))].

(** Construction from a two-dimensional array [a[size1][size2]], given
    by its rows. The dimensions are the two extents converted to
    [int64_t]; the values are the first [size1 * size2] elements, the
    product taken in [size_t], of the memory of the array, which holds
    the rows one after the other. *)
Definition ctor_2d (Sc : ScalarArgumentT) (size1 size2 : Z)
  (a : list (list Z)) : t Sc :=
  let n := to_unsigned size_t_bits (size1 * size2) in
  mk (copy_back_inserter (firstn (Z.to_nat n) (List.concat a)) [])
     [convert int64_t size1; convert int64_t size2].

Definition getDimensions {Sc} (a : t Sc) : list Z := dimensions a.
Definition getValue {Sc} (a : t Sc) : list Z := value a.

(** The loop of [getNumElements] from a given accumulator. Each
    [int64_t] dimension initialises the loop variable
    [unsigned int dimSize]. *)
Fixpoint getNumElements_from (accu : Z) (dims : list Z) : Outcome Z :=
  match dims with
  | [] => Ok accu
  | d :: dims' =>
      let dimSize := to_unsigned unsigned_int_bits d in
      accu' <- safeUnsignedMul size_t_bits accu dimSize ;;
      getNumElements_from accu' dims'
  end.

Definition getNumElements {Sc} (a : t Sc) : Outcome Z :=
  getNumElements_from 1 (dimensions a).

Definition operator_eq {Sc Sc'} (a : t Sc) (b : t Sc') : bool :=
  if negb (vector_eqb (getDimensions a) (getDimensions b)) then false
  else zip_all_equal (value_type Sc) (value_type Sc') (value a) (value b).

Definition operator_ne {Sc Sc'} (a : t Sc) (b : t Sc') : bool :=
  negb (operator_eq a b).

End TensorLambdaArgument.

(** The product of the dimension sizes, over the integers. *)
Definition product (dims : list Z) : Z := fold_right Z.mul 1 dims.

(** A dimension that is not zero as an [unsigned int]. *)
Definition nonzero_dimSize (d : Z) : Prop :=
  to_unsigned unsigned_int_bits d <> 0.

(** The invariant of the data model: as many values as the product of
    the dimension sizes. *)
Definition length_is_product {Sc} (a : TensorLambdaArgument.t Sc) : Prop :=
  Z.of_nat (List.length (TensorLambdaArgument.getValue a)) = product (TensorLambdaArgument.getDimensions a).

(** ** The class hierarchy *)

(** One [ID] per class, hence per template instance. *)
Inductive ClassID : Type :=
| RTTIRoot_ID
| LambdaArgument_ID
| IntLambdaArgument_ID (T : FundamentalType)
| EIntLambdaArgument_ID (T : FundamentalType)
| TensorLambdaArgument_ID (Sc : ScalarArgumentT).

Definition ScalarArgumentT_eqb (Sc Sc' : ScalarArgumentT) : bool :=
  match Sc, Sc' with
  | IntLambdaArgumentT T, IntLambdaArgumentT U => FundamentalType_eqb T U
  | EIntLambdaArgumentT T, EIntLambdaArgumentT U => FundamentalType_eqb T U
  | _, _ => false
  end.

Definition ClassID_eqb (c d : ClassID) : bool :=
  match c, d with
  | RTTIRoot_ID, RTTIRoot_ID => true
  | LambdaArgument_ID, LambdaArgument_ID => true
  | IntLambdaArgument_ID T, IntLambdaArgument_ID U => FundamentalType_eqb T U
  | EIntLambdaArgument_ID T, EIntLambdaArgument_ID U => FundamentalType_eqb T U
  | TensorLambdaArgument_ID Sc, TensorLambdaArgument_ID Sc' =>
      ScalarArgumentT_eqb Sc Sc'
  | _, _ => false
  end.

(** [RTTIExtends<ThisT, ParentT>::isA(id)] is
    [id == ThisT::classID() || ParentT::isA(id)]; one definition per
    class, following the [RTTIExtends] base named in its declaration. *)
Definition RTTIRoot_isA (id : ClassID) : bool :=
  ClassID_eqb id RTTIRoot_ID.

Definition LambdaArgument_isA (id : ClassID) : bool :=
  ClassID_eqb id LambdaArgument_ID || RTTIRoot_isA id.

Definition IntLambdaArgument_isA (T : FundamentalType) (id : ClassID) : bool :=
  ClassID_eqb id (IntLambdaArgument_ID T) || LambdaArgument_isA id.

Definition EIntLambdaArgument_isA (T : FundamentalType) (id : ClassID) : bool :=
  ClassID_eqb id (EIntLambdaArgument_ID T) || IntLambdaArgument_isA T id.

Definition TensorLambdaArgument_isA (Sc : ScalarArgumentT) (id : ClassID) : bool :=
  ClassID_eqb id (TensorLambdaArgument_ID Sc) || LambdaArgument_isA id.

(** An object seen through a [LambdaArgument] reference: its dynamic
    class and the members of that class. *)
Inductive LambdaArgument : Type :=
| IntArg (T : FundamentalType) (a : IntLambdaArgument.t T)
| EIntArg (T : FundamentalType) (a : IntLambdaArgument.t T)
| TensorArg (Sc : ScalarArgumentT) (a : TensorLambdaArgument.t Sc).

Definition dynamicClassID (arg : LambdaArgument) : ClassID :=
  match arg with
  | IntArg T _ => IntLambdaArgument_ID T
  | EIntArg T _ => EIntLambdaArgument_ID T
  | TensorArg Sc _ => TensorLambdaArgument_ID Sc
  end.

(** The virtual [isA]. *)
Definition isA (arg : LambdaArgument) (id : ClassID) : bool :=
  match arg with
  | IntArg T _ => IntLambdaArgument_isA T id
  | EIntArg T _ => EIntLambdaArgument_isA T id
  | TensorArg Sc _ => TensorLambdaArgument_isA Sc id
  end.

(** [arg.isa<C>()] and [arg.dyn_cast<C>()], with [C] given by its ID:
    the cast yields the object itself or the null pointer. *)
Definition isa (C : ClassID) (arg : LambdaArgument) : bool := isA arg C.

Definition dyn_cast (C : ClassID) (arg : LambdaArgument)
  : option LambdaArgument :=
  if isa C arg then Some arg else None.

Definition nonnull {A : Type} (p : option A) : bool :=
  match p with Some _ => true | None => false end.

(** ** Type names *)

Definition NameOfFundamentalType (T : FundamentalType) : string :=
  match T with
  | uint8_t => "uint8_t"
  | int8_t => "int8_t"
  | uint16_t => "uint16_t"
  | int16_t => "int16_t"
  | uint32_t => "uint32_t"
  | int32_t => "int32_t"
  | uint64_t => "uint64_t"
  | int64_t => "int64_t"
  end%string.

(** [LambdaArgumentTypeName<T, Ts...>::get]; the empty pack asserts
    false, which is [None] here. *)
Fixpoint LambdaArgumentTypeName (Ts : list FundamentalType)
  (arg : LambdaArgument) : option string :=
  match Ts with
  | [] => None
  | T :: Ts' =>
      if nonnull (dyn_cast (IntLambdaArgument_ID T) arg) then
        Some (NameOfFundamentalType T)
      else if nonnull (dyn_cast (EIntLambdaArgument_ID T) arg) then
        Some ("encrypted " ++ NameOfFundamentalType T)%string
      else if nonnull
                (dyn_cast (TensorLambdaArgument_ID (IntLambdaArgumentT T)) arg)
      then
        Some ("tensor<" ++ NameOfFundamentalType T ++ ">")%string
      else if nonnull
                (dyn_cast (TensorLambdaArgument_ID (EIntLambdaArgumentT T)) arg)
      then
        Some ("tensor<encrypted " ++ NameOfFundamentalType T ++ ">")%string
      else LambdaArgumentTypeName Ts' arg
  end.

Definition getLambdaArgumentTypeAsString (arg : LambdaArgument)
  : option string :=
  LambdaArgumentTypeName
    [int8_t; uint8_t; int16_t; uint16_t; int32_t; uint32_t; int64_t; uint64_t]
    arg.

(** ** Closed forms used in the statements below *)

(** An array [a[size1][size2]]: [size1] rows of [size2] elements. *)
Definition is_array (size1 size2 : Z) (a : list (list Z)) : Prop :=
  Z.of_nat (List.length a) = size1
  /\ Forall (fun row => Z.of_nat (List.length row) = size2) a.

(** The backing integer type of an argument. *)
Definition backing_type (arg : LambdaArgument) : FundamentalType :=
  match arg with
  | IntArg T _ => T
  | EIntArg T _ => T
  | TensorArg Sc _ => value_type Sc
  end.

(** The three renderings the resolver produces. *)
Inductive Rendering : Type :=
| BareName | PlainTensorName | EncryptedTensorName.

Definition rendering (arg : LambdaArgument) : Rendering :=
  match arg with
  | IntArg _ _ => BareName
  | EIntArg _ _ => BareName
  | TensorArg (IntLambdaArgumentT _) _ => PlainTensorName
  | TensorArg (EIntLambdaArgumentT _) _ => EncryptedTensorName
  end.

Definition rendered_name (arg : LambdaArgument) : string :=
  match rendering arg with
  | BareName => NameOfFundamentalType (backing_type arg)
  | PlainTensorName =>
      "tensor<" ++ NameOfFundamentalType (backing_type arg) ++ ">"
  | EncryptedTensorName =>
      "tensor<encrypted " ++ NameOfFundamentalType (backing_type arg) ++ ">"
  end%string.

(** * Properties *)

(** ** Integer conversions *)

Lemma pow2_pos (w : Z) : 0 <= w -> 0 < 2 ^ w.
Proof. intros Hw. apply Z.pow_pos_nonneg; lia. Qed.

Lemma to_unsigned_small (w z : Z) : 0 <= z < 2 ^ w -> to_unsigned w z = z.
Proof. intros Hz. unfold to_unsigned. now apply Z.mod_small. Qed.

Lemma to_unsigned_range (w z : Z) : 0 <= w -> 0 <= to_unsigned w z < 2 ^ w.
Proof.
  intros Hw. unfold to_unsigned. apply Z.mod_pos_bound. now apply pow2_pos.
Qed.

Lemma to_signed_small (w z : Z) :
  0 < w -> - 2 ^ (w - 1) <= z < 2 ^ (w - 1) -> to_signed w z = z.
Proof.
  intros Hw Hz. unfold to_signed.
  assert (Hdouble : 2 ^ w = 2 * 2 ^ (w - 1)).
  { replace w with (Z.succ (w - 1)) at 1 by lia. apply Z.pow_succ_r. lia. }
  rewrite Z.mod_small by lia. lia.
Qed.

Lemma convert_representable (T : FundamentalType) (z : Z) :
  representable T z -> convert T z = z.
Proof.
  unfold representable, numeric_limits_min, numeric_limits_max, convert.
  destruct T; cbn [is_signed sizeof]; intros Hz;
    (apply to_unsigned_small || apply to_signed_small); lia.
Qed.

Lemma common_type_same (T U : FundamentalType) :
  T = U -> common_type T U = promote T.
Proof. intros <-. now destruct T. Qed.

Lemma representable_promote (T : FundamentalType) (z : Z) :
  representable T z -> representable (promote T) z.
Proof.
  unfold representable, numeric_limits_min, numeric_limits_max.
  destruct T; cbn; lia.
Qed.

(** On two operands of one type, [==] is equality of the values. *)
Lemma cxx_eq_same_type (T : FundamentalType) (x y : Z) :
  representable T x -> representable T y ->
  cxx_eq T T x y = true <-> x = y.
Proof.
  intros Hx Hy. unfold cxx_eq.
  rewrite (common_type_same T T eq_refl).
  rewrite !convert_representable by now apply representable_promote.
  apply Z.eqb_eq.
Qed.

(** A conjunction with a power of two keeps that one bit. *)
Lemma land_pow2 (v n : Z) :
  0 <= n -> Z.land v (2 ^ n) = if Z.testbit v n then 2 ^ n else 0.
Proof.
  intros Hn. apply Z.bits_inj'. intros k Hk.
  rewrite Z.land_spec, Z.pow2_bits_eqb by assumption.
  destruct (Z.eqb_spec n k) as [-> | Hne].
  - destruct (Z.testbit v k) eqn:Hbit; cbn.
    + rewrite Z.pow2_bits_eqb by assumption. now rewrite Z.eqb_refl.
    + now rewrite Z.bits_0.
  - rewrite andb_false_r.
    destruct (Z.testbit v n).
    + rewrite Z.pow2_bits_eqb by assumption.
      symmetry. now apply Z.eqb_neq.
    + now rewrite Z.bits_0.
Qed.

(** ** The overflow-checked multiplication *)

Section SafeUnsignedMul.

(** The width of the accumulator type. *)
Variable w : Z.
Hypothesis w_pos : 0 < w.

(** The quotient test passes exactly below [max / accu]. *)
Lemma safeUnsignedMul_unfold (accu factor : Z) :
  accu <> 0 ->
  safeUnsignedMul w accu factor =
    if factor <? (2 ^ w - 1) / accu then Ok ((accu * factor) mod 2 ^ w)
    else Err (OverflowError accu factor).
Proof.
  intros Hne. unfold safeUnsignedMul.
  apply Z.eqb_neq in Hne. rewrite Hne.
  now rewrite Z.gtb_ltb.
Qed.

(** Below the quotient the product is representable, so the stored
    product is the exact one. *)
Lemma safeUnsignedMul_below_quotient (accu factor : Z) :
  0 < accu -> 0 <= factor -> factor < (2 ^ w - 1) / accu ->
  safeUnsignedMul w accu factor = Ok (accu * factor)
  /\ accu * factor < 2 ^ w - 1.
Proof.
  intros Ha Hf Hlt.
  assert (Hq : accu * ((2 ^ w - 1) / accu) <= 2 ^ w - 1)
    by (apply Z.mul_div_le; lia).
  assert (Hprod : accu * factor < 2 ^ w - 1) by nia.
  split; [| exact Hprod].
  rewrite safeUnsignedMul_unfold by lia.
  apply Z.ltb_lt in Hlt. rewrite Hlt.
  rewrite Z.mod_small by nia. reflexivity.
Qed.

(** Whenever the call succeeds on in-range operands, the new
    accumulator is the exact product. *)
Lemma safeUnsignedMul_Ok_exact (accu factor r : Z) :
  0 <= accu -> 0 <= factor ->
  safeUnsignedMul w accu factor = Ok r ->
  r = accu * factor /\ 0 < accu /\ accu * factor < 2 ^ w - 1.
Proof.
  intros Ha Hf Hcall.
  destruct (Z.eq_dec accu 0) as [-> | Hne]; [discriminate Hcall |].
  rewrite safeUnsignedMul_unfold in Hcall by assumption.
  destruct (Z.ltb_spec factor ((2 ^ w - 1) / accu)) as [Hlt | Hge];
    [| discriminate Hcall].
  destruct (safeUnsignedMul_below_quotient accu factor) as [Heq Hb];
    try lia.
  rewrite safeUnsignedMul_unfold in Heq by assumption.
  apply Z.ltb_lt in Hlt. rewrite Hlt in Heq.
  injection Hcall as <-. injection Heq as ->. lia.
Qed.

(** C3: with a zero accumulator the quotient [max / accu] is taken
    with a zero divisor, whatever the factor: the call has undefined
    behaviour instead of returning the product 0. *)
Theorem safeUnsignedMul_zero_accumulator (factor : Z) :
  safeUnsignedMul w 0 factor = UndefinedBehaviour
  /\ safeUnsignedMul w 0 factor <> Ok 0.
Proof.
  unfold safeUnsignedMul. rewrite Z.eqb_refl. split; [reflexivity | discriminate].
Qed.

(** C7: for an accumulator of at least 1 and a factor whose exact
    product with it exceeds the maximum of the accumulator type, the
    call returns the overflow error carrying both operands, and no
    product. *)
Theorem safeUnsignedMul_overflow (accu factor : Z)
  (Haccu : 1 <= accu <= 2 ^ w - 1)
  (Hover : accu * factor > 2 ^ w - 1) :
  safeUnsignedMul w accu factor = Err (OverflowError accu factor)
  /\ (forall r, safeUnsignedMul w accu factor <> Ok r).
Proof.
  rewrite safeUnsignedMul_unfold by lia.
  destruct (Z.ltb_spec factor ((2 ^ w - 1) / accu)) as [Hlt | Hge];
    [| split; [reflexivity | discriminate]].
  exfalso.
  assert (Hq : accu * ((2 ^ w - 1) / accu) <= 2 ^ w - 1)
    by (apply Z.mul_div_le; lia).
  nia.
Qed.

End SafeUnsignedMul.

Lemma safeUnsignedMul_overflow_witness :
  1 <= 16 <= 2 ^ 8 - 1 /\ 16 * 16 > 2 ^ 8 - 1
  /\ safeUnsignedMul 8 16 16 = Err (OverflowError 16 16)
  /\ (forall r, safeUnsignedMul 8 16 16 <> Ok r).
Proof.
  split; [cbn; lia | split; [cbn; lia |]].
  apply (safeUnsignedMul_overflow 8); [lia | cbn; lia | cbn; lia].
Defined.

(** C6: the accumulator [2^62] and the factor [3] have the product
    [3 * 2^62], which a 64-bit accumulator represents, and the call
    returns the overflow error: the quotient [max / accu] is [3] and the
    test [left > factor] is strict. *)
Theorem safeUnsignedMul_rejects_representable_product :
  0 <= 2 ^ 62 * 3 <= 2 ^ size_t_bits - 1
  /\ safeUnsignedMul size_t_bits (2 ^ 62) 3 = Err (OverflowError (2 ^ 62) 3).
Proof. split; [cbn; lia | reflexivity]. Qed.

(** The same for every accumulator, at the quotient itself. *)
Lemma safeUnsignedMul_at_quotient (w accu : Z) :
  0 < w -> 0 < accu ->
  accu * ((2 ^ w - 1) / accu) <= 2 ^ w - 1
  /\ safeUnsignedMul w accu ((2 ^ w - 1) / accu)
     = Err (OverflowError accu ((2 ^ w - 1) / accu)).
Proof.
  intros Hw Haccu. split; [apply Z.mul_div_le; lia |].
  rewrite safeUnsignedMul_unfold by lia.
  now rewrite Z.ltb_irrefl.
Qed.

(** In particular at the very top of the range: [1 * max] is rejected. *)
Example safeUnsignedMul_rejects_max :
  safeUnsignedMul 64 1 (2 ^ 64 - 1) = Err (OverflowError 1 (2 ^ 64 - 1)).
Proof. reflexivity. Qed.

(** ** Counting the elements of a tensor *)

Import TensorLambdaArgument.

Lemma getNumElements_from_app (pre post : list Z) : forall accu,
  getNumElements_from accu (pre ++ post) =
    (n <- getNumElements_from accu pre ;; getNumElements_from n post).
Proof.
  induction pre as [| d pre IH]; intros accu; cbn [app getNumElements_from].
  - reflexivity.
  - destruct (safeUnsignedMul size_t_bits accu (to_unsigned unsigned_int_bits d));
      cbn [bind]; [apply IH | reflexivity | reflexivity].
Qed.

(** From a non-zero accumulator and over non-zero dimension sizes the
    loop never divides by zero: it ends with a non-zero count or with
    the overflow error. *)
Lemma getNumElements_from_nonzero (dims : list Z) : forall accu,
  1 <= accu < 2 ^ size_t_bits ->
  Forall nonzero_dimSize dims ->
  (exists n, getNumElements_from accu dims = Ok n /\ 1 <= n < 2 ^ size_t_bits)
  \/ (exists e, getNumElements_from accu dims = Err e).
Proof.
  induction dims as [| d dims IH]; intros accu Haccu Hdims;
    cbn [getNumElements_from].
  - left. now exists accu.
  - inversion Hdims as [| ? ? Hd Hrest]; subst.
    pose proof (to_unsigned_range unsigned_int_bits d ltac:(discriminate)) as Hr.
    unfold nonzero_dimSize in Hd.
    destruct (safeUnsignedMul size_t_bits accu (to_unsigned unsigned_int_bits d))
      as [accu' | e |] eqn:Hmul; cbn [bind].
    + apply (safeUnsignedMul_Ok_exact size_t_bits eq_refl) in Hmul; try lia.
      destruct Hmul as (-> & _ & Hlt).
      apply IH; [nia | assumption].
    + right. now exists e.
    + unfold safeUnsignedMul in Hmul.
      destruct (Z.eqb_spec accu 0); [lia |].
      destruct (_ >? _); discriminate Hmul.
Qed.

(** Over dimensions that fit an [unsigned int], a count that is returned
    is the accumulator times the product of the dimensions. *)
Lemma getNumElements_from_Ok_product (dims : list Z) : forall accu n,
  0 <= accu ->
  Forall (fun d => 0 <= d < 2 ^ unsigned_int_bits) dims ->
  getNumElements_from accu dims = Ok n ->
  n = accu * product dims.
Proof.
  induction dims as [| d dims IH]; intros accu n Haccu Hdims Hcall;
    cbn [getNumElements_from product fold_right] in *.
  - injection Hcall as <-. lia.
  - inversion Hdims as [| ? ? Hd Hrest]; subst.
    rewrite to_unsigned_small in Hcall by assumption.
    destruct (safeUnsignedMul size_t_bits accu d) as [accu' | e |] eqn:Hmul;
      cbn [bind] in Hcall; try discriminate Hcall.
    apply (safeUnsignedMul_Ok_exact size_t_bits eq_refl) in Hmul; try lia.
    destruct Hmul as (-> & Hpos & _).
    fold (product dims).
    assert (Hnext : 0 <= accu * d) by nia.
    rewrite (IH (accu * d) n Hnext Hrest Hcall). ring.
Qed.

Example getNumElements_2_3_4 (Sc : ScalarArgumentT) (value : list Z) :
  getNumElements (ctor_copy Sc value [2; 3; 4]) = Ok 24.
Proof. reflexivity. Qed.

(** X26: when the last dimension is 0, no dimension before it is zero
    as an [unsigned int], and counting the dimensions before it raises
    no overflow error, the count is 0 and no error is returned. *)
Theorem getNumElements_last_dimension_zero
  (Sc : ScalarArgumentT) (a : TensorLambdaArgument.t Sc) (pre : list Z)
  (Hdims : getDimensions a = pre ++ [0])
  (Hpre : Forall nonzero_dimSize pre)
  (Hfits : forall e, getNumElements_from 1 pre <> Err e) :
  getNumElements a = Ok 0.
Proof.
  unfold getNumElements. unfold getDimensions in Hdims. rewrite Hdims.
  rewrite getNumElements_from_app.
  destruct (getNumElements_from_nonzero pre 1) as [(n & Hn & Hrange) | (e & He)];
    [cbn; lia | assumption | | now apply Hfits in He].
  rewrite Hn. cbn [bind getNumElements_from].
  change (to_unsigned unsigned_int_bits 0) with 0.
  destruct (safeUnsignedMul_below_quotient size_t_bits eq_refl n 0)
    as [Hmul _]; try lia.
  - apply Z.div_str_pos. lia.
  - rewrite Hmul. cbn [bind]. now rewrite Z.mul_0_r.
Qed.

Lemma getNumElements_last_dimension_zero_witness :
  let a := ctor_copy (IntLambdaArgumentT uint8_t) [] [3; 5; 0] in
  getDimensions a = [3; 5] ++ [0]
  /\ Forall nonzero_dimSize [3; 5]
  /\ (forall e, getNumElements_from 1 [3; 5] <> Err e)
  /\ getNumElements a = Ok 0.
Proof.
  assert (Hpre : Forall nonzero_dimSize [3; 5])
    by (repeat constructor; discriminate).
  assert (Hfits : forall e, getNumElements_from 1 [3; 5] <> Err e)
    by (intros e; discriminate).
  intros a.
  split; [reflexivity |]. split; [exact Hpre |]. split; [exact Hfits |].
  exact (getNumElements_last_dimension_zero (IntLambdaArgumentT uint8_t)
           (ctor_copy (IntLambdaArgumentT uint8_t) [] [3; 5; 0]) [3; 5]
           eq_refl Hpre Hfits).
Defined.

(** C4: two dimension sequences that contain a 0, so that the tensor
    has 0 elements, a representable count. On [0, 5] the second
    multiplication divides by the zero accumulator: undefined behaviour.
    On four dimensions of [2^16] followed by 0 the count overflows
    before the 0 is reached and the overflow error is returned. Neither
    call returns the count 0. *)
Theorem getNumElements_zero_dimension_not_counted
  (Sc : ScalarArgumentT) (value : list Z) :
  let a := ctor_move Sc value [0; 5] in
  let b := ctor_move Sc value [65536; 65536; 65536; 65536; 0] in
  In 0 (getDimensions a)
  /\ product (getDimensions a) = 0
  /\ getNumElements a = UndefinedBehaviour
  /\ In 0 (getDimensions b)
  /\ product (getDimensions b) = 0
  /\ getNumElements b = Err (OverflowError 281474976710656 65536).
Proof.
  cbn zeta.
  split; [cbn; tauto |]. split; [reflexivity |].
  split; [vm_compute; reflexivity |].
  split; [cbn; tauto |]. split; [reflexivity |].
  vm_compute. reflexivity.
Qed.

(** C5: the single dimension [2^32 + 2] is a representable element
    count, and the count returned is 2: the loop variable is an
    [unsigned int] and keeps the low 32 bits of the dimension. *)
Theorem getNumElements_truncates_dimension
  (Sc : ScalarArgumentT) (value : list Z) :
  let a := ctor_move Sc value [4294967298] in
  0 <= product (getDimensions a) <= 2 ^ size_t_bits - 1
  /\ product (getDimensions a) = 4294967298
  /\ getNumElements a = Ok 2.
Proof. cbn zeta. repeat split; cbn; lia || reflexivity || discriminate. Qed.

(** Two further sequences with a representable product that are not
    counted: a product rejected by the strict quotient test, and a
    dimension after a zero. *)
Example getNumElements_rejects_representable (Sc : ScalarArgumentT) :
  getNumElements (ctor_move Sc [] [2147483648; 2147483648; 3])
  = Err (OverflowError (2 ^ 62) 3).
Proof. reflexivity. Qed.

Example getNumElements_after_zero (Sc : ScalarArgumentT) :
  getNumElements (ctor_move Sc [] [0; 5]) = UndefinedBehaviour.
Proof. reflexivity. Qed.

(** ** Construction of a scalar argument *)

Lemma representable_pow2 (T : FundamentalType) (n : Z) :
  0 <= n <= 8 * sizeof T - 2 -> representable T (2 ^ n).
Proof.
  intros Hn. unfold representable, numeric_limits_min, numeric_limits_max.
  assert (Hpos : 0 < 2 ^ n) by (apply pow2_pos; lia).
  assert (Hle : 2 ^ n <= 2 ^ (8 * sizeof T - 2))
    by (apply Z.pow_le_mono_r; lia).
  destruct T; cbn [is_signed sizeof] in *; cbn in Hle |- *; lia.
Qed.

Lemma representable_0 (T : FundamentalType) : representable T 0.
Proof.
  unfold representable, numeric_limits_min, numeric_limits_max.
  destruct T; cbn; lia.
Qed.

(** What the constructor stores for a precision from 1 to 31 below the
    width of the backing type: bit [precision - 1] of the value, in
    place, and nothing else. *)
Lemma ctor_keeps_one_bit (T : FundamentalType) (value precision : Z) :
  1 <= precision < 8 * sizeof T -> precision <= 31 ->
  IntLambdaArgument.ctor T value precision =
    Ok (IntLambdaArgument.mk precision
            (if Z.testbit value (precision - 1)
             then 2 ^ (precision - 1) else 0)).
Proof.
  intros Hp Hp31. unfold IntLambdaArgument.ctor.
  destruct (Z.ltb_spec precision (8 * sizeof T)) as [_ | Hge]; [| lia].
  rewrite Z.mod_small by (unfold unsigned_int_bits; cbn; lia).
  unfold shl_one.
  destruct (Z.ltb_spec (precision - 1) 31) as [_ | Hge]; [| lia].
  cbn [bind]. rewrite land_pow2 by lia.
  rewrite convert_representable; [reflexivity |].
  destruct (Z.testbit value (precision - 1));
    [apply representable_pow2; lia | apply representable_0].
Qed.

(** C1: an 8-bit backing type, precision 4 and the raw value
    [0b11110101]. The low four bits of the value are [0b0101]; the
    constructor stores 0, the conjunction of the value with
    [1 << 3]. *)
Theorem ctor_uint8_precision_4 :
  Z.land 245 (Z.ones 4) = 5
  /\ (a <- IntLambdaArgument.ctor uint8_t 245 4 ;;
      Ok (IntLambdaArgument.getValue a)) = Ok 0
  /\ (a <- IntLambdaArgument.ctor uint8_t 245 4 ;;
      Ok (IntLambdaArgument.getValue a)) <> Ok 5.
Proof. split; [reflexivity |]. split; [reflexivity | discriminate]. Qed.

(** A value within the low [precision] bits is not kept either. *)
Example ctor_uint8_precision_4_of_5 :
  IntLambdaArgument.ctor uint8_t 5 4 = Ok (IntLambdaArgument.mk 4 0).
Proof. now rewrite ctor_keeps_one_bit by (cbn; lia). Qed.

(** A precision of 0 wraps the shift count to [2^32 - 1]. *)
Example ctor_precision_0 (T : FundamentalType) (value : Z) :
  IntLambdaArgument.ctor T value 0 = UndefinedBehaviour.
Proof. now destruct T. Qed.

(** At the full width of the backing type the value is stored as it
    is. *)
Lemma ctor_default_stores_value (T : FundamentalType) (value : Z) :
  IntLambdaArgument.ctor_default T value
  = Ok (IntLambdaArgument.mk (8 * sizeof T) value).
Proof.
  unfold IntLambdaArgument.ctor_default, IntLambdaArgument.ctor.
  now rewrite Z.ltb_irrefl.
Qed.

(** ** Construction and equality of tensors *)

Lemma copy_back_inserter_app {A : Type} (src : list A) : forall dst,
  copy_back_inserter src dst = dst ++ src.
Proof.
  unfold copy_back_inserter.
  induction src as [| x src IH]; intros dst; cbn [fold_left].
  - now rewrite app_nil_r.
  - rewrite IH, <- app_assoc. reflexivity.
Qed.

Lemma ctor_copy_is_ctor_move (Sc : ScalarArgumentT) (value dimensions : list Z) :
  ctor_copy Sc value dimensions = ctor_move Sc value dimensions.
Proof. unfold ctor_copy, ctor_move. now rewrite copy_back_inserter_app. Qed.

(** C9, as amended: both constructors store the buffer and the
    dimensions they are given, unchanged and unchecked; the tensor they
    build has as many values as the product of its dimensions exactly
    when the buffer passed in has as many values as the product of the
    dimensions passed in. *)
Theorem ctor_stores_unchanged
  (Sc : ScalarArgumentT) (value dimensions : list Z) :
  getValue (ctor_copy Sc value dimensions) = value
  /\ getDimensions (ctor_copy Sc value dimensions) = dimensions
  /\ getValue (ctor_move Sc value dimensions) = value
  /\ getDimensions (ctor_move Sc value dimensions) = dimensions
  /\ (length_is_product (ctor_copy Sc value dimensions)
      <-> Z.of_nat (List.length value) = product dimensions)
  /\ (length_is_product (ctor_move Sc value dimensions)
      <-> Z.of_nat (List.length value) = product dimensions).
Proof.
  assert (Hcopy : getValue (ctor_copy Sc value dimensions) = value).
  { unfold ctor_copy, getValue. cbn [TensorLambdaArgument.value].
    now rewrite copy_back_inserter_app. }
  split; [exact Hcopy |]. split; [reflexivity |].
  split; [reflexivity |]. split; [reflexivity |].
  unfold length_is_product. rewrite Hcopy.
  split; reflexivity.
Qed.

(** C9 as stated fails: three values are accepted with the shape
    [2, 2]. *)
Lemma ctor_copy_length_mismatch :
  let a := ctor_copy (IntLambdaArgumentT uint8_t) [1; 2; 3] [2; 2] in
  getValue a = [1; 2; 3]
  /\ getDimensions a = [2; 2]
  /\ ~ length_is_product a.
Proof.
  cbn zeta. split; [reflexivity |]. split; [reflexivity |].
  unfold length_is_product. cbn. discriminate.
Qed.

(** The one-dimensional constructor does establish the invariant, for
    an array whose size fits [int64_t]. *)
Lemma ctor_1d_length_is_product (Sc : ScalarArgumentT) (value : list Z) :
  Z.of_nat (List.length value) <= numeric_limits_max int64_t ->
  length_is_product (ctor_1d Sc value).
Proof.
  intros Hsize. unfold ctor_1d. rewrite ctor_copy_is_ctor_move.
  unfold length_is_product, ctor_move, getValue, getDimensions;
    cbn [TensorLambdaArgument.value TensorLambdaArgument.dimensions].
  rewrite convert_representable.
  - cbn [product fold_right]. lia.
  - unfold representable. split; [| exact Hsize].
    transitivity 0; [discriminate | apply Nat2Z.is_nonneg].
Qed.

Lemma vector_eqb_eq (xs : list Z) : forall ys,
  vector_eqb xs ys = true <-> xs = ys.
Proof.
  induction xs as [| x xs IH]; intros [| y ys]; cbn [vector_eqb];
    try (split; [discriminate | discriminate]); [tauto |].
  rewrite andb_true_iff, Z.eqb_eq, IH.
  split; [intros [-> ->]; reflexivity | intros [= -> ->]; tauto].
Qed.

(** The loop over the zipped buffers accepts exactly when every pair at
    a common index compares equal. *)
Lemma zip_all_equal_nth (T U : FundamentalType) (xs : list Z) : forall ys,
  zip_all_equal T U xs ys = true <->
  (forall i x y, nth_error xs i = Some x -> nth_error ys i = Some y ->
                 cxx_eq T U x y = true).
Proof.
  induction xs as [| x xs IH]; intros [| y ys]; cbn [zip_all_equal].
  - split; [intros _ [| i] ? ? [=] | reflexivity].
  - split; [intros _ [| i] ? ? [=] | reflexivity].
  - split; [intros _ [| i] ? ? _ [=] | reflexivity].
  - unfold cxx_ne. destruct (cxx_eq T U x y) eqn:Hxy; cbn [negb].
    + rewrite IH. split.
      * intros Hrest [| i] x' y'; cbn [nth_error].
        -- now intros [= <-] [= <-].
        -- apply Hrest.
      * intros Hall i x' y'. apply (Hall (Datatypes.S i)).
    + split; [discriminate |].
      intros Hall. rewrite <- Hxy. now apply (Hall 0%nat).
Qed.

Lemma zip_all_equal_same_length (T : FundamentalType) (xs : list Z) : forall ys,
  Forall (representable T) xs -> Forall (representable T) ys ->
  List.length xs = List.length ys ->
  zip_all_equal T T xs ys = true <-> xs = ys.
Proof.
  induction xs as [| x xs IH]; intros [| y ys] Hxs Hys Hlen;
    cbn [zip_all_equal]; try discriminate Hlen; [tauto |].
  inversion Hxs as [| ? ? Hx Hxs']; inversion Hys as [| ? ? Hy Hys']; subst.
  injection Hlen as Hlen.
  pose proof (cxx_eq_same_type T x y Hx Hy) as Hxy.
  unfold cxx_ne. destruct (cxx_eq T T x y); cbn [negb].
  - rewrite (IH ys Hxs' Hys' Hlen).
    assert (x = y) as -> by now apply Hxy.
    split; [now intros -> | now intros [= ->]].
  - split; [discriminate |].
    intros [= Heq _]. apply Hxy in Heq. discriminate Heq.
Qed.

(** C8, as amended: for every two tensors of one scalar argument type,
    equality is false when the dimension sequences differ, whatever the
    values and the lengths of the buffers. When, in addition, the
    buffers have the same length whenever the dimension sequences are
    identical (as for two tensors that both have as many values as the
    product of their dimensions), equality holds exactly when the
    dimension sequences are identical and the values are identical in
    linear order. *)
Theorem operator_eq_identical
  (Sc : ScalarArgumentT) (a b : TensorLambdaArgument.t Sc) :
  (getDimensions a <> getDimensions b -> operator_eq a b = false)
  /\ (Forall (representable (value_type Sc)) (getValue a) ->
      Forall (representable (value_type Sc)) (getValue b) ->
      (getDimensions a = getDimensions b ->
       List.length (getValue a) = List.length (getValue b)) ->
      (operator_eq a b = true <->
       getDimensions a = getDimensions b /\ getValue a = getValue b)).
Proof.
  unfold operator_eq.
  pose proof (vector_eqb_eq (getDimensions a) (getDimensions b)) as Hdims.
  destruct (vector_eqb (getDimensions a) (getDimensions b)); cbn [negb].
  - assert (Hsame : getDimensions a = getDimensions b) by now apply Hdims.
    split; [intros Hne; now destruct Hne |].
    intros Ha Hb Hlen.
    pose proof (zip_all_equal_same_length (value_type Sc) _ _ Ha Hb
                  (Hlen Hsame)) as Hvals.
    unfold getValue in Hvals |- *. rewrite Hvals.
    split; [intros ->; split; [exact Hsame | reflexivity] | tauto].
  - split; [reflexivity |].
    intros _ _ _. split; [discriminate |].
    intros [Heq _]. apply Hdims in Heq. discriminate Heq.
Qed.

Lemma operator_eq_identical_witness :
  let a := ctor_copy (IntLambdaArgumentT uint8_t) [1; 2; 3; 4] [2; 2] in
  let b := ctor_copy (IntLambdaArgumentT uint8_t) [1; 2; 3; 4; 5; 6] [2; 3] in
  length_is_product a /\ length_is_product b
  /\ getDimensions a <> getDimensions b
  /\ operator_eq a b = false
  /\ (operator_eq a a = true <->
      getDimensions a = getDimensions a /\ getValue a = getValue a).
Proof.
  intros a b.
  assert (Hrange : Forall (representable uint8_t) [1; 2; 3; 4])
    by (repeat constructor; cbn; lia).
  assert (Hne : getDimensions a <> getDimensions b) by discriminate.
  split; [reflexivity |]. split; [reflexivity |]. split; [exact Hne |].
  split.
  - exact (proj1 (operator_eq_identical (IntLambdaArgumentT uint8_t) a b) Hne).
  - exact (proj2 (operator_eq_identical (IntLambdaArgumentT uint8_t) a a)
             Hrange Hrange (fun _ => eq_refl)).
Defined.

(** C8 as stated fails: the constructors accept five values for the
    shape [2, 2], and the loop over the zipped buffers stops after the
    four values of the shorter one. *)
Lemma operator_eq_ignores_extra_values :
  let a := ctor_copy (IntLambdaArgumentT uint8_t) [1; 2; 3; 4] [2; 2] in
  let b := ctor_copy (IntLambdaArgumentT uint8_t) [1; 2; 3; 4; 5] [2; 2] in
  operator_eq a b = true
  /\ ~ (getDimensions a = getDimensions b /\ getValue a = getValue b).
Proof.
  cbn zeta. split; [reflexivity |]. intros [_ Hvalues]. discriminate Hvalues.
Qed.

Example operator_eq_equal_tensors (Sc : ScalarArgumentT) :
  operator_eq (ctor_copy Sc [1; 2; 3; 4] [2; 2])
              (ctor_copy Sc [1; 2; 3; 4] [2; 2]) = true.
Proof. now destruct Sc as [[] | []]. Qed.

Example operator_eq_different_value (Sc : ScalarArgumentT) :
  operator_eq (ctor_copy Sc [1; 2; 3; 4] [2; 2])
              (ctor_copy Sc [1; 2; 3; 5] [2; 2]) = false.
Proof. now destruct Sc as [[] | []]. Qed.

Example operator_eq_different_shape (Sc : ScalarArgumentT) :
  operator_eq (ctor_copy Sc [1; 2; 3; 4] [2; 2])
              (ctor_copy Sc [1; 2; 3; 4] [4]) = false.
Proof. reflexivity. Qed.

(** ** Dynamic casts and type names *)

Lemma FundamentalType_eqb_refl (T : FundamentalType) :
  FundamentalType_eqb T T = true.
Proof. now destruct T. Qed.

Lemma FundamentalType_eqb_eq (T U : FundamentalType) :
  FundamentalType_eqb T U = true <-> T = U.
Proof. destruct T, U; cbn; split; (reflexivity || discriminate). Qed.

(** A cast between the scalar and the tensor classes yields the null
    pointer. *)
Lemma dyn_cast_scalar_tensor
  (T : FundamentalType) (x : IntLambdaArgument.t T)
  (Sc : ScalarArgumentT) (y : TensorLambdaArgument.t Sc) :
  dyn_cast (TensorLambdaArgument_ID Sc) (IntArg T x) = None
  /\ dyn_cast (TensorLambdaArgument_ID Sc) (EIntArg T x) = None
  /\ dyn_cast (IntLambdaArgument_ID T) (TensorArg Sc y) = None
  /\ dyn_cast (EIntLambdaArgument_ID T) (TensorArg Sc y) = None.
Proof. repeat split; unfold dyn_cast, isa; cbn; now rewrite ?orb_false_r. Qed.

(** C10: an encrypted scalar is an [IntLambdaArgument] of its backing
    type. The cast to [IntLambdaArgument<T>] and the cast to
    [EIntLambdaArgument<T>] both succeed on it, and the resolver, which
    tries the former first, answers with the name of the plain scalar. *)
Theorem EIntLambdaArgument_is_IntLambdaArgument
  (T : FundamentalType) (x : IntLambdaArgument.t T)
  (Ts : list FundamentalType) :
  EIntLambdaArgument_isA T (IntLambdaArgument_ID T) = true
  /\ dyn_cast (IntLambdaArgument_ID T) (EIntArg T x) = Some (EIntArg T x)
  /\ dyn_cast (EIntLambdaArgument_ID T) (EIntArg T x) = Some (EIntArg T x)
  /\ LambdaArgumentTypeName (T :: Ts) (EIntArg T x)
     = Some (NameOfFundamentalType T).
Proof.
  assert (Hplain : isa (IntLambdaArgument_ID T) (EIntArg T x) = true).
  { unfold isa, isA, EIntLambdaArgument_isA, IntLambdaArgument_isA.
    cbn [ClassID_eqb]. rewrite FundamentalType_eqb_refl. reflexivity. }
  assert (Hencrypted : isa (EIntLambdaArgument_ID T) (EIntArg T x) = true).
  { unfold isa, isA, EIntLambdaArgument_isA.
    cbn [ClassID_eqb]. rewrite FundamentalType_eqb_refl. reflexivity. }
  split; [exact Hplain |].
  cbn [LambdaArgumentTypeName]. unfold dyn_cast.
  rewrite Hplain, Hencrypted. repeat split.
Qed.

(** C2: plain scalars, plain tensors and encrypted tensors are named as
    stated; an encrypted scalar is given the bare name of its backing
    type, without the prefix ["encrypted "]. *)
Theorem getLambdaArgumentTypeAsString_names
  (T : FundamentalType) (x : IntLambdaArgument.t T)
  (y : TensorLambdaArgument.t (IntLambdaArgumentT T))
  (z : TensorLambdaArgument.t (EIntLambdaArgumentT T)) :
  getLambdaArgumentTypeAsString (IntArg T x)
  = Some (NameOfFundamentalType T)
  /\ getLambdaArgumentTypeAsString (TensorArg (IntLambdaArgumentT T) y)
     = Some ("tensor<" ++ NameOfFundamentalType T ++ ">")%string
  /\ getLambdaArgumentTypeAsString (TensorArg (EIntLambdaArgumentT T) z)
     = Some ("tensor<encrypted " ++ NameOfFundamentalType T ++ ">")%string
  /\ getLambdaArgumentTypeAsString (EIntArg T x)
     = Some (NameOfFundamentalType T)
  /\ getLambdaArgumentTypeAsString (EIntArg T x)
     <> Some ("encrypted " ++ NameOfFundamentalType T)%string.
Proof.
  destruct T; (split; [reflexivity |]); (split; [reflexivity |]);
    (split; [reflexivity |]); (split; [reflexivity | discriminate]).
Qed.

Example getLambdaArgumentTypeAsString_encrypted_uint32 :
  getLambdaArgumentTypeAsString
    (EIntArg uint32_t (IntLambdaArgument.mk 32 5)) = Some "uint32_t"%string.
Proof. reflexivity. Qed.

(** * Further properties *)

(** ** Scalar arguments: construction *)

Lemma to_signed_range (w z : Z) :
  0 < w -> - 2 ^ (w - 1) <= to_signed w z < 2 ^ (w - 1).
Proof.
  intros Hw. unfold to_signed.
  assert (Hdouble : 2 ^ w = 2 * 2 ^ (w - 1)).
  { replace w with (Z.succ (w - 1)) at 1 by lia. apply Z.pow_succ_r. lia. }
  pose proof (Z.mod_pos_bound (z + 2 ^ (w - 1)) (2 ^ w)
                ltac:(apply pow2_pos; lia)) as Hmod.
  lia.
Qed.

Lemma convert_range (T : FundamentalType) (z : Z) :
  representable T (convert T z).
Proof.
  unfold representable, numeric_limits_min, numeric_limits_max, convert.
  destruct (is_signed T) eqn:Hsigned.
  - pose proof (to_signed_range (8 * sizeof T) z ltac:(destruct T; cbn; lia)).
    lia.
  - pose proof (to_unsigned_range (8 * sizeof T) z ltac:(destruct T; cbn; lia)).
    lia.
Qed.

Lemma to_unsigned_negative (w x : Z) :
  0 <= w -> - 2 ^ w <= x < 0 -> to_unsigned w x = x + 2 ^ w.
Proof.
  intros Hw Hx. unfold to_unsigned.
  pose proof (pow2_pos w Hw) as Hpos.
  rewrite <- (Z.mod_small (x + 2 ^ w) (2 ^ w)) by lia.
  replace (x + 2 ^ w) with (x + 1 * 2 ^ w) by ring.
  now rewrite Z.mod_add by lia.
Qed.

(** X1: for a precision from 1 to 31 below the width of the backing
    type, the object built has the precision given and stores bit
    [precision - 1] of the value in place, every other bit cleared. *)
Theorem ctor_stores_bit_below_precision
  (T : FundamentalType) (value precision : Z)
  (Hwidth : 1 <= precision < 8 * sizeof T)
  (Hint : precision <= 31) :
  exists a,
    IntLambdaArgument.ctor T value precision = Ok a
    /\ IntLambdaArgument.getPrecision a = precision
    /\ IntLambdaArgument.getValue a
       = (if Z.testbit value (precision - 1) then 2 ^ (precision - 1) else 0).
Proof.
  eexists. split; [apply ctor_keeps_one_bit; assumption |].
  split; reflexivity.
Qed.

Lemma ctor_stores_bit_below_precision_witness :
  1 <= 12 < 8 * sizeof uint16_t /\ 12 <= 31
  /\ exists a,
       IntLambdaArgument.ctor uint16_t 2748 12 = Ok a
       /\ IntLambdaArgument.getPrecision a = 12
       /\ IntLambdaArgument.getValue a
          = (if Z.testbit 2748 (12 - 1) then 2 ^ (12 - 1) else 0).
Proof.
  split; [cbn; lia |]. split; [lia |].
  apply (ctor_stores_bit_below_precision uint16_t 2748 12); cbn; lia.
Defined.

(** X2: a non-negative value that fits in [precision - 1] bits is
    stored as 0, for the same precisions. *)
Theorem ctor_small_value_stored_as_zero
  (T : FundamentalType) (value precision : Z)
  (Hwidth : 1 <= precision < 8 * sizeof T)
  (Hint : precision <= 31)
  (Hvalue : 0 <= value < 2 ^ (precision - 1)) :
  IntLambdaArgument.ctor T value precision
  = Ok (IntLambdaArgument.mk precision 0).
Proof.
  rewrite ctor_keeps_one_bit by assumption.
  destruct (Z.eq_dec value 0) as [-> | Hne].
  - now rewrite Z.bits_0.
  - rewrite (Z.bits_above_log2 value (precision - 1)); [reflexivity | lia |].
    apply Z.log2_lt_pow2; lia.
Qed.

Lemma ctor_small_value_stored_as_zero_witness :
  1 <= 4 < 8 * sizeof uint8_t /\ 4 <= 31 /\ 0 <= 7 < 2 ^ (4 - 1)
  /\ IntLambdaArgument.ctor uint8_t 7 4 = Ok (IntLambdaArgument.mk 4 0).
Proof.
  split; [cbn; lia |]. split; [lia |]. split; [cbn; lia |].
  apply (ctor_small_value_stored_as_zero uint8_t 7 4); cbn; lia.
Defined.

(** X3: below the width of the backing type, a precision of 0 and every
    precision from 33 on make the shift count of the mask fall outside
    the width of [int]: the constructor has undefined behaviour,
    whatever the value. *)
Theorem ctor_undefined_shift
  (T : FundamentalType) (value precision : Z)
  (Hwidth : 0 <= precision < 8 * sizeof T)
  (Hshift : precision = 0 \/ 33 <= precision) :
  IntLambdaArgument.ctor T value precision = UndefinedBehaviour.
Proof.
  unfold IntLambdaArgument.ctor.
  destruct (Z.ltb_spec precision (8 * sizeof T)) as [_ | Hge]; [| lia].
  assert (Hcount : 32 <= (precision - 1) mod 2 ^ unsigned_int_bits).
  { destruct Hshift as [-> | Hp]; [cbn; lia |].
    rewrite Z.mod_small; [lia |].
    unfold unsigned_int_bits. destruct T; cbn in *; lia. }
  unfold shl_one.
  destruct (Z.ltb_spec ((precision - 1) mod 2 ^ unsigned_int_bits) 31);
    [lia |].
  destruct (Z.eqb_spec ((precision - 1) mod 2 ^ unsigned_int_bits) 31);
    [lia | reflexivity].
Qed.

Lemma ctor_undefined_shift_witness :
  0 <= 40 < 8 * sizeof uint64_t /\ (40 = 0 \/ 33 <= 40)
  /\ IntLambdaArgument.ctor uint64_t 255 40 = UndefinedBehaviour.
Proof.
  split; [cbn; lia |]. split; [right; lia |].
  apply (ctor_undefined_shift uint64_t 255 40); [cbn; lia | right; lia].
Defined.


(** ** Scalar arguments: equality *)

Lemma common_type_comm (T U : FundamentalType) :
  common_type T U = common_type U T.
Proof. now destruct T, U. Qed.

Lemma cxx_eq_comm (T U : FundamentalType) (x y : Z) :
  cxx_eq T U x y = cxx_eq U T y x.
Proof. unfold cxx_eq. rewrite (common_type_comm U T). apply Z.eqb_sym. Qed.


(** A non-negative value keeps its value in the common type of its own
    type and any other. *)
Lemma convert_common_type_nonneg (T U : FundamentalType) (x : Z) :
  representable T x -> 0 <= x ->
  convert (common_type T U) x = x /\ convert (common_type U T) x = x.
Proof.
  intros Hx Hpos. rewrite (common_type_comm U T).
  assert (Hfits : representable (common_type T U) x).
  { unfold representable, numeric_limits_min, numeric_limits_max in *.
    destruct T, U; cbn in *; lia. }
  split; now apply convert_representable.
Qed.

(** X5: two scalar arguments of one backing type compare equal exactly
    when their values are equal; the precisions play no part. *)
Theorem scalar_operator_eq_same_type
  (T : FundamentalType) (a b : IntLambdaArgument.t T)
  (Ha : representable T (IntLambdaArgument.getValue a))
  (Hb : representable T (IntLambdaArgument.getValue b)) :
  (IntLambdaArgument.operator_eq a b = true
   <-> IntLambdaArgument.getValue a = IntLambdaArgument.getValue b)
  /\ (IntLambdaArgument.operator_ne a b = true
      <-> IntLambdaArgument.getValue a <> IntLambdaArgument.getValue b).
Proof.
  unfold IntLambdaArgument.operator_ne, IntLambdaArgument.operator_eq.
  pose proof (cxx_eq_same_type T _ _ Ha Hb) as Heq.
  split; [exact Heq |].
  rewrite <- Heq.
  destruct (cxx_eq T T _ _); cbn [negb]; intuition congruence.
Qed.

Lemma scalar_operator_eq_same_type_witness :
  let a := IntLambdaArgument.mk (BackingIntType := uint8_t) 8 5 in
  let b := IntLambdaArgument.mk (BackingIntType := uint8_t) 3 5 in
  representable uint8_t (IntLambdaArgument.getValue a)
  /\ representable uint8_t (IntLambdaArgument.getValue b)
  /\ (IntLambdaArgument.operator_eq a b = true
      <-> IntLambdaArgument.getValue a = IntLambdaArgument.getValue b)
  /\ (IntLambdaArgument.operator_ne a b = true
      <-> IntLambdaArgument.getValue a <> IntLambdaArgument.getValue b).
Proof.
  intros a b.
  assert (Hr : representable uint8_t 5) by (unfold representable; cbn; lia).
  split; [exact Hr |]. split; [exact Hr |].
  exact (scalar_operator_eq_same_type uint8_t a b Hr Hr).
Defined.

(** X6: across any two backing types, two non-negative values compare
    equal exactly when they are the same number. *)
Theorem scalar_operator_eq_nonnegative
  (T U : FundamentalType)
  (a : IntLambdaArgument.t T) (b : IntLambdaArgument.t U)
  (Ha : representable T (IntLambdaArgument.getValue a))
  (Hb : representable U (IntLambdaArgument.getValue b))
  (Hapos : 0 <= IntLambdaArgument.getValue a)
  (Hbpos : 0 <= IntLambdaArgument.getValue b) :
  IntLambdaArgument.operator_eq a b = true
  <-> IntLambdaArgument.getValue a = IntLambdaArgument.getValue b.
Proof.
  unfold IntLambdaArgument.operator_eq, cxx_eq.
  destruct (convert_common_type_nonneg T U _ Ha Hapos) as [-> _].
  destruct (convert_common_type_nonneg U T _ Hb Hbpos) as [_ ->].
  apply Z.eqb_eq.
Qed.

Lemma scalar_operator_eq_nonnegative_witness :
  let a := IntLambdaArgument.mk (BackingIntType := int8_t) 8 100 in
  let b := IntLambdaArgument.mk (BackingIntType := uint64_t) 64 100 in
  representable int8_t (IntLambdaArgument.getValue a)
  /\ representable uint64_t (IntLambdaArgument.getValue b)
  /\ 0 <= IntLambdaArgument.getValue a
  /\ 0 <= IntLambdaArgument.getValue b
  /\ (IntLambdaArgument.operator_eq a b = true
      <-> IntLambdaArgument.getValue a = IntLambdaArgument.getValue b).
Proof.
  intros a b.
  assert (Ha : representable int8_t 100) by (unfold representable; cbn; lia).
  assert (Hb : representable uint64_t 100) by (unfold representable; cbn; lia).
  split; [exact Ha |]. split; [exact Hb |].
  split; [cbn; lia |]. split; [cbn; lia |].
  exact (scalar_operator_eq_nonnegative int8_t uint64_t a b Ha Hb
           ltac:(cbn; lia) ltac:(cbn; lia)).
Defined.

(** X7: a negative value of a signed backing type against a value of an
    unsigned backing type of at least 32 bits and at least the same
    size: the two compare equal exactly when the unsigned value is the
    signed one plus [2^width] of the unsigned type. *)
Theorem scalar_operator_eq_negative_unsigned
  (T U : FundamentalType)
  (a : IntLambdaArgument.t T) (b : IntLambdaArgument.t U)
  (HT : is_signed T = true) (HU : is_signed U = false)
  (Hint : 4 <= sizeof U) (Hsize : sizeof T <= sizeof U)
  (Ha : representable T (IntLambdaArgument.getValue a))
  (Hb : representable U (IntLambdaArgument.getValue b))
  (Hneg : IntLambdaArgument.getValue a < 0) :
  IntLambdaArgument.operator_eq a b = true
  <-> IntLambdaArgument.getValue b
      = IntLambdaArgument.getValue a + 2 ^ (8 * sizeof U).
Proof.
  unfold IntLambdaArgument.operator_eq, cxx_eq.
  destruct a as [pa x], b as [pb y].
  cbn [IntLambdaArgument.getValue IntLambdaArgument.value] in *.
  assert (Hcommon : common_type T U = U)
    by (destruct T, U; cbn in *; (reflexivity || discriminate || lia)).
  rewrite Hcommon, (convert_representable U y Hb).
  unfold convert. rewrite HU.
  rewrite to_unsigned_negative.
  - rewrite Z.eqb_eq. split; intros; lia.
  - destruct U; cbn; lia.
  - unfold representable, numeric_limits_min, numeric_limits_max in Ha.
    destruct T, U; cbn in *; (discriminate || lia).
Qed.

Lemma scalar_operator_eq_negative_unsigned_witness :
  let a := IntLambdaArgument.mk (BackingIntType := int32_t) 32 (-1) in
  let b := IntLambdaArgument.mk (BackingIntType := uint32_t) 32 4294967295 in
  is_signed int32_t = true /\ is_signed uint32_t = false
  /\ 4 <= sizeof uint32_t /\ sizeof int32_t <= sizeof uint32_t
  /\ representable int32_t (IntLambdaArgument.getValue a)
  /\ representable uint32_t (IntLambdaArgument.getValue b)
  /\ IntLambdaArgument.getValue a < 0
  /\ (IntLambdaArgument.operator_eq a b = true
      <-> IntLambdaArgument.getValue b
          = IntLambdaArgument.getValue a + 2 ^ (8 * sizeof uint32_t)).
Proof.
  intros a b.
  assert (Ha : representable int32_t (-1)) by (unfold representable; cbn; lia).
  assert (Hb : representable uint32_t 4294967295)
    by (unfold representable; cbn; lia).
  split; [reflexivity |]. split; [reflexivity |].
  split; [cbn; lia |]. split; [cbn; lia |].
  split; [exact Ha |]. split; [exact Hb |]. split; [cbn; lia |].
  exact (scalar_operator_eq_negative_unsigned int32_t uint32_t a b
           eq_refl eq_refl ltac:(cbn; lia) ltac:(cbn; lia) Ha Hb
           ltac:(cbn; lia)).
Defined.

(** X8: equality of scalar arguments is symmetric across backing types,
    and so is inequality. *)
Theorem scalar_operator_eq_symmetric
  (T U : FundamentalType)
  (a : IntLambdaArgument.t T) (b : IntLambdaArgument.t U) :
  IntLambdaArgument.operator_eq a b = IntLambdaArgument.operator_eq b a
  /\ IntLambdaArgument.operator_ne a b = IntLambdaArgument.operator_ne b a.
Proof.
  unfold IntLambdaArgument.operator_ne, IntLambdaArgument.operator_eq.
  now rewrite (cxx_eq_comm T U).
Qed.

(** ** The overflow-checked multiplication, in closed form *)

Lemma safeUnsignedMul_succ_test (w accu factor : Z)
  (Hw : 0 < w) (Haccu : 1 <= accu) (Hfactor : 0 <= factor) :
  safeUnsignedMul w accu factor =
    if accu * (factor + 1) <=? 2 ^ w - 1 then Ok (accu * factor)
    else Err (OverflowError accu factor).
Proof.
  rewrite (safeUnsignedMul_unfold w) by lia.
  pose proof (Z.mul_div_le (2 ^ w - 1) accu ltac:(lia)) as Hle.
  pose proof (Z.mul_succ_div_gt (2 ^ w - 1) accu ltac:(lia)) as Hgt.
  destruct (Z.ltb_spec factor ((2 ^ w - 1) / accu)) as [Hlt | Hge];
    destruct (Z.leb_spec (accu * (factor + 1)) (2 ^ w - 1)) as [Hfit | Hover];
    try reflexivity.
  - rewrite Z.mod_small by nia. reflexivity.
  - exfalso. nia.
  - exfalso. nia.
Qed.

(** X9: for an accumulator of at least 1 and a non-negative factor the
    call succeeds exactly when [accu * (factor + 1)] does not exceed the
    maximum of the accumulator type; it then stores the exact product,
    and otherwise returns the overflow error naming both operands. *)
Theorem safeUnsignedMul_closed_form (w accu factor : Z)
  (Hw : 0 < w) (Haccu : 1 <= accu) (Hfactor : 0 <= factor) :
  safeUnsignedMul w accu factor =
    if accu * (factor + 1) <=? 2 ^ w - 1 then Ok (accu * factor)
    else Err (OverflowError accu factor).
Proof.
  rewrite (safeUnsignedMul_unfold w) by lia.
  pose proof (Z.mul_div_le (2 ^ w - 1) accu ltac:(lia)) as Hle.
  pose proof (Z.mul_succ_div_gt (2 ^ w - 1) accu ltac:(lia)) as Hgt.
  destruct (Z.ltb_spec factor ((2 ^ w - 1) / accu)) as [Hlt | Hge];
    destruct (Z.leb_spec (accu * (factor + 1)) (2 ^ w - 1)) as [Hfit | Hover];
    try reflexivity.
  - rewrite Z.mod_small by nia. reflexivity.
  - exfalso. nia.
  - exfalso. nia.
Qed.

Lemma safeUnsignedMul_closed_form_witness :
  0 < 16 /\ 1 <= 255 /\ 0 <= 256
  /\ safeUnsignedMul 16 255 256 =
       (if 255 * (256 + 1) <=? 2 ^ 16 - 1 then Ok (255 * 256)
        else Err (OverflowError 255 256)).
Proof.
  split; [lia |]. split; [lia |]. split; [lia |].
  apply (safeUnsignedMul_closed_form 16 255 256); lia.
Defined.

(** ** The element count, in general *)

(** The dimensions as the loop reads them. *)
Lemma getNumElements_from_Ok_truncated (dims : list Z) : forall accu n,
  0 <= accu <= 2 ^ size_t_bits - 1 ->
  getNumElements_from accu dims = Ok n ->
  n = accu * product (map (to_unsigned unsigned_int_bits) dims)
  /\ 0 <= n <= 2 ^ size_t_bits - 1.
Proof.
  induction dims as [| d dims IH]; intros accu n Haccu Hcall;
    cbn [getNumElements_from product fold_right map] in *.
  - injection Hcall as <-. lia.
  - pose proof (to_unsigned_range unsigned_int_bits d ltac:(discriminate)) as Hd.
    destruct (safeUnsignedMul size_t_bits accu (to_unsigned unsigned_int_bits d))
      as [accu' | e |] eqn:Hmul; cbn [bind] in Hcall; try discriminate Hcall.
    apply (safeUnsignedMul_Ok_exact size_t_bits eq_refl) in Hmul; try lia.
    destruct Hmul as (-> & Hpos & Hlt).
    fold (product (map (to_unsigned unsigned_int_bits) dims)).
    assert (Hnext : 0 <= accu * to_unsigned unsigned_int_bits d
                    <= 2 ^ size_t_bits - 1) by nia.
    destruct (IH _ _ Hnext Hcall) as [-> Hrange].
    split; [ring | exact Hrange].
Qed.

(** X10: a count that is returned is the product of the dimensions as
    [unsigned int] values (each dimension modulo [2^32]), and lies in
    the range of [size_t]; for dimensions from 0 to [2^32 - 1] this is
    the product of the dimensions. *)
Theorem getNumElements_Ok_is_truncated_product
  (Sc : ScalarArgumentT) (a : TensorLambdaArgument.t Sc) (n : Z)
  (Hcall : getNumElements a = Ok n) :
  n = product (map (to_unsigned unsigned_int_bits) (getDimensions a))
  /\ 0 <= n <= 2 ^ size_t_bits - 1
  /\ (Forall (fun d => 0 <= d < 2 ^ unsigned_int_bits) (getDimensions a) ->
      n = product (getDimensions a)).
Proof.
  unfold getNumElements in Hcall. unfold getDimensions.
  destruct (getNumElements_from_Ok_truncated _ 1 n ltac:(cbn; lia) Hcall)
    as [Hn Hrange].
  split; [lia |]. split; [exact Hrange |].
  intros Hdims.
  rewrite (getNumElements_from_Ok_product _ 1 n ltac:(lia) Hdims Hcall). lia.
Qed.

Lemma getNumElements_Ok_is_truncated_product_witness :
  let a := ctor_move (IntLambdaArgumentT uint8_t) [] [-1; 4294967299] in
  getNumElements a = Ok 12884901885
  /\ 12884901885
     = product (map (to_unsigned unsigned_int_bits) (getDimensions a))
  /\ 0 <= 12884901885 <= 2 ^ size_t_bits - 1
  /\ (Forall (fun d => 0 <= d < 2 ^ unsigned_int_bits) (getDimensions a) ->
      12884901885 = product (getDimensions a)).
Proof.
  intros a. split; [reflexivity |].
  exact (getNumElements_Ok_is_truncated_product _ a 12884901885 eq_refl).
Defined.

Lemma product_pos (dims : list Z) :
  Forall (fun d => 1 <= d < 2 ^ unsigned_int_bits) dims -> 1 <= product dims.
Proof.
  induction 1 as [| d dims Hd _ IH]; cbn [product fold_right]; [lia |].
  fold (product dims). nia.
Qed.

Lemma getNumElements_from_below_half (dims : list Z) : forall accu,
  1 <= accu ->
  Forall (fun d => 1 <= d < 2 ^ unsigned_int_bits) dims ->
  accu * product dims < 2 ^ (size_t_bits - 1) ->
  getNumElements_from accu dims = Ok (accu * product dims).
Proof.
  induction dims as [| d dims IH]; intros accu Haccu Hdims Hsmall;
    cbn [getNumElements_from product fold_right] in *.
  - now rewrite Z.mul_1_r.
  - inversion Hdims as [| ? ? Hd Hrest]; subst.
    fold (product dims) in *.
    pose proof (product_pos dims Hrest) as Hprod.
    rewrite to_unsigned_small by lia.
    assert (Hmono : accu * d <= accu * (d * product dims)).
    { rewrite Z.mul_assoc. rewrite <- (Z.mul_1_r (accu * d)) at 1.
      apply Z.mul_le_mono_nonneg_l; nia. }
    assert (Hstep : accu * d < 2 ^ (size_t_bits - 1)) by lia.
    assert (Hone : 1 <= accu * d) by nia.
    assert (Hd0 : 0 <= d) by lia.
    rewrite (safeUnsignedMul_succ_test size_t_bits accu d eq_refl Haccu Hd0).
    change (2 ^ (size_t_bits - 1)) with 9223372036854775808 in *.
    change (2 ^ size_t_bits) with 18446744073709551616.
    destruct (Z.leb_spec (accu * (d + 1)) (18446744073709551616 - 1));
      [| nia].
    cbn [bind]. rewrite IH; [f_equal; ring | exact Hone | assumption |].
    rewrite <- Z.mul_assoc. exact Hsmall.
Qed.

(** X11: when every dimension lies between 1 and [2^32 - 1] and the
    product of the dimensions is below [2^63], the count is returned and
    is that product. *)
Theorem getNumElements_below_half_range
  (Sc : ScalarArgumentT) (a : TensorLambdaArgument.t Sc)
  (Hdims : Forall (fun d => 1 <= d < 2 ^ unsigned_int_bits) (getDimensions a))
  (Hsmall : product (getDimensions a) < 2 ^ (size_t_bits - 1)) :
  getNumElements a = Ok (product (getDimensions a)).
Proof.
  unfold getNumElements. unfold getDimensions in *.
  rewrite (getNumElements_from_below_half _ 1); [f_equal; lia | lia | assumption | lia].
Qed.

Lemma getNumElements_below_half_range_witness :
  let a := ctor_move (IntLambdaArgumentT uint8_t) [] [1024; 768; 3] in
  Forall (fun d => 1 <= d < 2 ^ unsigned_int_bits) (getDimensions a)
  /\ product (getDimensions a) < 2 ^ (size_t_bits - 1)
  /\ getNumElements a = Ok (product (getDimensions a)).
Proof.
  intros a.
  assert (Hdims : Forall (fun d => 1 <= d < 2 ^ unsigned_int_bits)
                    (getDimensions a))
    by (repeat constructor; cbn; lia).
  assert (Hsmall : product (getDimensions a) < 2 ^ (size_t_bits - 1))
    by (cbn; lia).
  split; [exact Hdims |]. split; [exact Hsmall |].
  exact (getNumElements_below_half_range _ a Hdims Hsmall).
Defined.

Lemma getNumElements_from_Err (dims : list Z) : forall accu x y,
  getNumElements_from accu dims = Err (OverflowError x y) ->
  exists pre d post,
    dims = pre ++ d :: post
    /\ getNumElements_from accu pre = Ok x
    /\ y = to_unsigned unsigned_int_bits d
    /\ x <> 0
    /\ (2 ^ size_t_bits - 1) / x <= y.
Proof.
  induction dims as [| d dims IH]; intros accu x y Hcall;
    cbn [getNumElements_from] in Hcall; [discriminate Hcall |].
  destruct (safeUnsignedMul size_t_bits accu (to_unsigned unsigned_int_bits d))
    as [accu' | e |] eqn:Hmul; cbn [bind] in Hcall; try discriminate Hcall.
  - destruct (IH _ _ _ Hcall) as (pre & d' & post & -> & Hpre & Hy & Hx & Hq).
    exists (d :: pre), d', post.
    split; [reflexivity |].
    cbn [getNumElements_from]. rewrite Hmul. cbn [bind].
    repeat split; assumption.
  - injection Hcall as ->.
    unfold safeUnsignedMul in Hmul.
    destruct (Z.eqb_spec accu 0) as [| Hne]; [discriminate Hmul |].
    destruct (Z.gtb_spec ((2 ^ size_t_bits - 1) / accu)
                (to_unsigned unsigned_int_bits d)) as [| Hle];
      [discriminate Hmul |].
    injection Hmul as <- <-.
    exists [], d, dims. repeat split; (reflexivity || assumption).
Qed.

(** X12: an overflow error names the count of the dimensions before the
    first one that fails the quotient test, and that dimension as an
    [unsigned int]; the count is not zero and the dimension is at least
    the quotient of the maximum of [size_t] by it. *)
Theorem getNumElements_overflow_names_operands
  (Sc : ScalarArgumentT) (a : TensorLambdaArgument.t Sc) (x y : Z)
  (Hcall : getNumElements a = Err (OverflowError x y)) :
  exists pre d post,
    getDimensions a = pre ++ d :: post
    /\ getNumElements (ctor_move Sc (getValue a) pre) = Ok x
    /\ y = to_unsigned unsigned_int_bits d
    /\ x <> 0
    /\ (2 ^ size_t_bits - 1) / x <= y.
Proof.
  exact (getNumElements_from_Err _ 1 x y Hcall).
Qed.

Lemma getNumElements_overflow_names_operands_witness :
  let a := ctor_move (IntLambdaArgumentT uint8_t) []
             [4294967295; 4294967295; 7; 2] in
  getNumElements a = Err (OverflowError 18446744065119617025 7)
  /\ exists pre d post,
       getDimensions a = pre ++ d :: post
       /\ getNumElements (ctor_move (IntLambdaArgumentT uint8_t) (getValue a) pre)
          = Ok 18446744065119617025
       /\ 7 = to_unsigned unsigned_int_bits d
       /\ 18446744065119617025 <> 0
       /\ (2 ^ size_t_bits - 1) / 18446744065119617025 <= 7.
Proof.
  intros a. split; [reflexivity |].
  exact (getNumElements_overflow_names_operands _ a _ _ eq_refl).
Defined.

(** X13: once a dimension that is zero as an [unsigned int] has been
    multiplied in, any further dimension divides by the zero
    accumulator: the call has undefined behaviour, whatever the
    dimensions that follow. *)
Theorem getNumElements_dimension_after_zero
  (Sc : ScalarArgumentT) (a : TensorLambdaArgument.t Sc)
  (pre : list Z) (z d : Z) (post : list Z)
  (Hdims : getDimensions a = pre ++ z :: d :: post)
  (Hzero : to_unsigned unsigned_int_bits z = 0)
  (Hpre : Forall nonzero_dimSize pre)
  (Hfits : forall e, getNumElements_from 1 pre <> Err e) :
  getNumElements a = UndefinedBehaviour.
Proof.
  unfold getNumElements. unfold getDimensions in Hdims. rewrite Hdims.
  rewrite getNumElements_from_app.
  destruct (getNumElements_from_nonzero pre 1) as [(n & Hn & Hrange) | (e & He)];
    [cbn; lia | assumption | | now apply Hfits in He].
  rewrite Hn. cbn [bind getNumElements_from]. rewrite Hzero.
  assert (Hn0 : 0 <= 0) by lia.
  rewrite (safeUnsignedMul_succ_test size_t_bits n 0 eq_refl
             ltac:(lia) Hn0).
  destruct (Z.leb_spec (n * (0 + 1)) (2 ^ size_t_bits - 1)); [| lia].
  cbn [bind]. rewrite Z.mul_0_r.
  unfold safeUnsignedMul. now rewrite Z.eqb_refl.
Qed.

Lemma getNumElements_dimension_after_zero_witness :
  let a := ctor_move (IntLambdaArgumentT uint8_t) [] [3; 4294967296; 1] in
  getDimensions a = [3] ++ 4294967296 :: 1 :: []
  /\ to_unsigned unsigned_int_bits 4294967296 = 0
  /\ Forall nonzero_dimSize [3]
  /\ (forall e, getNumElements_from 1 [3] <> Err e)
  /\ getNumElements a = UndefinedBehaviour.
Proof.
  intros a.
  assert (Hpre : Forall nonzero_dimSize [3])
    by (repeat constructor; discriminate).
  assert (Hfits : forall e, getNumElements_from 1 [3] <> Err e)
    by (intros e; discriminate).
  split; [reflexivity |]. split; [reflexivity |].
  split; [exact Hpre |]. split; [exact Hfits |].
  exact (getNumElements_dimension_after_zero _ a [3] 4294967296 1 []
           eq_refl eq_refl Hpre Hfits).
Defined.

(** X14: when no dimension other than the last is zero as an
    [unsigned int], the call never divides by zero: it returns a count
    or the overflow error. *)
Theorem getNumElements_defined
  (Sc : ScalarArgumentT) (a : TensorLambdaArgument.t Sc)
  (Hdims : Forall nonzero_dimSize (removelast (getDimensions a))) :
  getNumElements a <> UndefinedBehaviour.
Proof.
  unfold getNumElements. unfold getDimensions in Hdims.
  generalize dependent (dimensions a). intros dims Hdims.
  destruct dims as [| d0 rest]; [discriminate |].
  rewrite (app_removelast_last 0 (l := d0 :: rest)) by discriminate.
  rewrite getNumElements_from_app.
  destruct (getNumElements_from_nonzero _ 1 ltac:(cbn; lia) Hdims)
    as [(n & Hn & Hrange) | (e & He)].
  - rewrite Hn. cbn [bind getNumElements_from].
    unfold safeUnsignedMul.
    destruct (Z.eqb_spec n 0); [lia |].
    destruct (_ >? _); cbn [bind]; discriminate.
  - rewrite He. discriminate.
Qed.

Lemma getNumElements_defined_witness :
  let a := ctor_move (IntLambdaArgumentT uint8_t) [] [7; -2; 0] in
  Forall nonzero_dimSize (removelast (getDimensions a))
  /\ getNumElements a <> UndefinedBehaviour.
Proof.
  intros a.
  assert (Hdims : Forall nonzero_dimSize (removelast (getDimensions a)))
    by (repeat constructor; discriminate).
  split; [exact Hdims |].
  exact (getNumElements_defined _ a Hdims).
Defined.

(** ** Tensor arguments: construction *)

(** X15: the copying and the moving constructor build the same object,
    whose buffer is the sequence of values passed, in order, and whose
    dimensions are the dimensions passed. *)
Theorem ctor_copy_move_members
  (Sc : ScalarArgumentT) (value dimensions : list Z) :
  ctor_copy Sc value dimensions = ctor_move Sc value dimensions
  /\ getValue (ctor_copy Sc value dimensions) = value
  /\ getDimensions (ctor_copy Sc value dimensions) = dimensions.
Proof.
  rewrite ctor_copy_is_ctor_move. repeat split.
Qed.

(** X16: the one-dimensional constructor, on an array of fewer than
    [2^32] values, builds a tensor with that buffer and the single
    dimension its length; the buffer is as long as the product of the
    dimensions, and the element count is returned and is that length. *)
Theorem ctor_1d_members (Sc : ScalarArgumentT) (value : list Z)
  (Hsize : Z.of_nat (List.length value) < 2 ^ unsigned_int_bits) :
  getValue (ctor_1d Sc value) = value
  /\ getDimensions (ctor_1d Sc value) = [Z.of_nat (List.length value)]
  /\ length_is_product (ctor_1d Sc value)
  /\ getNumElements (ctor_1d Sc value) = Ok (Z.of_nat (List.length value)).
Proof.
  change (2 ^ unsigned_int_bits) with 4294967296 in Hsize.
  pose proof (Nat2Z.is_nonneg (List.length value)) as Hpos.
  assert (Hdim : convert int64_t (Z.of_nat (List.length value))
                 = Z.of_nat (List.length value)).
  { apply convert_representable. unfold representable. cbn. lia. }
  assert (Hmembers : ctor_1d Sc value
                     = ctor_move Sc value [Z.of_nat (List.length value)]).
  { unfold ctor_1d. now rewrite ctor_copy_is_ctor_move, Hdim. }
  rewrite Hmembers.
  split; [reflexivity |]. split; [reflexivity |].
  split.
  - unfold length_is_product. cbn. lia.
  - unfold getNumElements. cbn [ctor_move dimensions getNumElements_from].
    rewrite to_unsigned_small by (cbn; lia).
    rewrite (safeUnsignedMul_succ_test size_t_bits 1 _ eq_refl
               ltac:(lia) Hpos).
    change (2 ^ size_t_bits) with 18446744073709551616.
    destruct (Z.leb_spec (1 * (Z.of_nat (List.length value) + 1))
                (18446744073709551616 - 1)); [| lia].
    cbn [bind]. f_equal. lia.
Qed.

Lemma ctor_1d_members_witness :
  Z.of_nat (List.length [7; 8; 9]) < 2 ^ unsigned_int_bits
  /\ getValue (ctor_1d (IntLambdaArgumentT uint8_t) [7; 8; 9]) = [7; 8; 9]
  /\ getDimensions (ctor_1d (IntLambdaArgumentT uint8_t) [7; 8; 9])
     = [Z.of_nat (List.length [7; 8; 9])]
  /\ length_is_product (ctor_1d (IntLambdaArgumentT uint8_t) [7; 8; 9])
  /\ getNumElements (ctor_1d (IntLambdaArgumentT uint8_t) [7; 8; 9])
     = Ok (Z.of_nat (List.length [7; 8; 9])).
Proof.
  split; [cbn; lia |].
  apply (ctor_1d_members (IntLambdaArgumentT uint8_t) [7; 8; 9]). cbn. lia.
Defined.

Lemma length_concat_rows (size2 : Z) (a : list (list Z)) :
  Forall (fun row => Z.of_nat (List.length row) = size2) a ->
  Z.of_nat (List.length (List.concat a)) = Z.of_nat (List.length a) * size2.
Proof.
  induction 1 as [| row rest Hrow _ IH]; cbn [List.concat List.length];
    [reflexivity |].
  rewrite length_app. lia.
Qed.

(** Row [i], column [j] of an array lies [i * size2 + j] elements into
    its memory. *)
Lemma nth_error_concat_rows (n : nat) (a : list (list Z)) : forall i j,
  Forall (fun row => List.length row = n) a ->
  (j < n)%nat ->
  nth_error (List.concat a) (i * n + j)
  = match nth_error a i with
    | Some row => nth_error row j
    | None => None
    end.
Proof.
  induction a as [| row rest IH]; intros i j Hrows Hj.
  - cbn [List.concat]. now rewrite !nth_error_nil.
  - inversion Hrows as [| ? ? Hrow Hrest]; subst.
    cbn [List.concat]. destruct i as [| i]; cbn [nth_error].
    + rewrite nth_error_app1 by (cbn; lia). reflexivity.
    + rewrite nth_error_app2 by (cbn; lia).
      replace (Datatypes.S i * List.length row + j - List.length row)%nat
        with (i * List.length row + j)%nat by (cbn; lia).
      now apply IH.
Qed.

(** X17: the constructor from a two-dimensional array of [size1] rows
    and [size2] columns builds a tensor of dimensions [size1, size2]
    whose buffer holds the rows one after the other: the buffer is as
    long as the product of the dimensions, and the element of row [i]
    and column [j] is at index [i * size2 + j]. *)
Theorem ctor_2d_members
  (Sc : ScalarArgumentT) (size1 size2 : Z) (a : list (list Z))
  (Harray : is_array size1 size2 a)
  (Hsize1 : 1 <= size1) (Hsize2 : 1 <= size2)
  (Hfits : size1 * size2 <= numeric_limits_max int64_t) :
  getDimensions (ctor_2d Sc size1 size2 a) = [size1; size2]
  /\ getValue (ctor_2d Sc size1 size2 a) = List.concat a
  /\ length_is_product (ctor_2d Sc size1 size2 a)
  /\ (forall i j : nat,
        (j < Z.to_nat size2)%nat ->
        nth_error (getValue (ctor_2d Sc size1 size2 a))
          (i * Z.to_nat size2 + j)
        = match nth_error a i with
          | Some row => nth_error row j
          | None => None
          end).
Proof.
  destruct Harray as [Hrows Hcols].
  change (numeric_limits_max int64_t) with 9223372036854775807 in Hfits.
  pose proof (length_concat_rows size2 a Hcols) as Hlen.
  rewrite Hrows in Hlen.
  assert (Hbound1 : size1 <= size1 * size2) by nia.
  assert (Hbound2 : size2 <= size1 * size2) by nia.
  assert (Hdim1 : convert int64_t size1 = size1)
    by (apply convert_representable; unfold representable; cbn; lia).
  assert (Hdim2 : convert int64_t size2 = size2)
    by (apply convert_representable; unfold representable; cbn; lia).
  assert (Hvalue : getValue (ctor_2d Sc size1 size2 a) = List.concat a).
  { unfold ctor_2d, getValue. cbn [value].
    rewrite copy_back_inserter_app. cbn [app].
    rewrite to_unsigned_small by (cbn; lia).
    rewrite <- Hlen, Nat2Z.id. apply firstn_all. }
  split; [unfold ctor_2d, getDimensions; cbn [TensorLambdaArgument.dimensions];
          now rewrite Hdim1, Hdim2 |].
  split; [exact Hvalue |].
  split.
  - unfold length_is_product. rewrite Hvalue.
    unfold ctor_2d, getDimensions. cbn [dimensions].
    rewrite Hdim1, Hdim2. cbn [product fold_right]. lia.
  - intros i j Hj. rewrite Hvalue.
    apply nth_error_concat_rows; [| exact Hj].
    eapply Forall_impl; [| exact Hcols].
    intros row Hrow. cbn beta in Hrow. lia.
Qed.

Lemma ctor_2d_members_witness :
  let a := [[1; 2; 3]; [4; 5; 6]] in
  let t := ctor_2d (IntLambdaArgumentT uint8_t) 2 3 a in
  is_array 2 3 a /\ 1 <= 2 /\ 1 <= 3
  /\ 2 * 3 <= numeric_limits_max int64_t
  /\ getDimensions t = [2; 3]
  /\ getValue t = List.concat a
  /\ length_is_product t
  /\ (forall i j : nat,
        (j < Z.to_nat 3)%nat ->
        nth_error (getValue t) (i * Z.to_nat 3 + j)
        = match nth_error a i with
          | Some row => nth_error row j
          | None => None
          end).
Proof.
  intros a t.
  assert (Harray : is_array 2 3 a)
    by (split; [reflexivity | repeat constructor]).
  split; [exact Harray |]. split; [lia |]. split; [lia |].
  split; [cbn; lia |].
  exact (ctor_2d_members (IntLambdaArgumentT uint8_t) 2 3 a Harray
           ltac:(lia) ltac:(lia) ltac:(cbn; lia)).
Defined.

(** ** Tensor arguments: equality *)




Lemma operator_eq_iff_common_indices
  (Sc Sc' : ScalarArgumentT)
  (a : TensorLambdaArgument.t Sc) (b : TensorLambdaArgument.t Sc') :
  operator_eq a b = true
  <-> getDimensions a = getDimensions b
      /\ (forall i x y,
            nth_error (getValue a) i = Some x ->
            nth_error (getValue b) i = Some y ->
            cxx_eq (value_type Sc) (value_type Sc') x y = true).
Proof.
  unfold operator_eq.
  pose proof (vector_eqb_eq (getDimensions a) (getDimensions b)) as Hdims.
  rewrite <- zip_all_equal_nth.
  destruct (vector_eqb (getDimensions a) (getDimensions b)); cbn [negb].
  - unfold getValue. split; [intros Hzip; split; [now apply Hdims | exact Hzip] | tauto].
  - split; [discriminate |].
    intros [Heq _]. apply Hdims in Heq. discriminate Heq.
Qed.



(** X20: a tensor with an empty buffer equals every tensor that has its
    dimensions, whatever that tensor's values. *)
Theorem tensor_operator_eq_empty_buffer
  (Sc Sc' : ScalarArgumentT)
  (a : TensorLambdaArgument.t Sc) (b : TensorLambdaArgument.t Sc')
  (Hempty : getValue a = []) :
  operator_eq a b = true <-> getDimensions a = getDimensions b.
Proof.
  rewrite operator_eq_iff_common_indices.
  rewrite Hempty. split; [tauto |].
  intros Hdims. split; [exact Hdims |].
  intros i x y Hx. now rewrite nth_error_nil in Hx.
Qed.

Lemma tensor_operator_eq_empty_buffer_witness :
  let a := ctor_move (IntLambdaArgumentT uint8_t) [] [2; 2] in
  let b := ctor_move (IntLambdaArgumentT uint8_t) [1; 2; 3; 4] [2; 2] in
  getValue a = []
  /\ (operator_eq a b = true <-> getDimensions a = getDimensions b).
Proof.
  intros a b. split; [reflexivity |].
  exact (tensor_operator_eq_empty_buffer _ _ a b eq_refl).
Defined.

(** ** Dynamic casts *)

Lemma ScalarArgumentT_eqb_eq (Sc Sc' : ScalarArgumentT) :
  ScalarArgumentT_eqb Sc Sc' = true <-> Sc = Sc'.
Proof.
  destruct Sc as [T | T], Sc' as [U | U]; cbn [ScalarArgumentT_eqb];
    rewrite ?FundamentalType_eqb_eq;
    split; (congruence || discriminate).
Qed.

Lemma nonnull_dyn_cast (C : ClassID) (arg : LambdaArgument) :
  nonnull (dyn_cast C arg) = isa C arg.
Proof. unfold dyn_cast. now destruct (isa C arg). Qed.

(** X21: a cast yields the object itself or the null pointer; the cast
    to [LambdaArgument] and the cast to the dynamic class of the object
    always succeed. *)
Theorem dyn_cast_returns_object (C : ClassID) (arg : LambdaArgument) :
  (dyn_cast C arg = Some arg \/ dyn_cast C arg = None)
  /\ dyn_cast LambdaArgument_ID arg = Some arg
  /\ dyn_cast (dynamicClassID arg) arg = Some arg.
Proof.
  split; [unfold dyn_cast; destruct (isa C arg); auto |].
  split.
  - now destruct arg.
  - unfold dyn_cast, isa.
    destruct arg as [T x | T x | Sc y];
      unfold isA, dynamicClassID, IntLambdaArgument_isA,
        EIntLambdaArgument_isA, TensorLambdaArgument_isA;
      cbn [ClassID_eqb].
    + now rewrite FundamentalType_eqb_refl.
    + now rewrite FundamentalType_eqb_refl.
    + now rewrite (proj2 (ScalarArgumentT_eqb_eq Sc Sc) eq_refl).
Qed.

(** X22: a cast to a scalar class succeeds only on a scalar of the same
    backing type, and a plain scalar is never an encrypted scalar: on a
    plain scalar the cast to [IntLambdaArgument<U>] succeeds exactly
    when [U] is its backing type and the cast to
    [EIntLambdaArgument<U>] never; on an encrypted scalar both succeed
    exactly when [U] is its backing type. *)
Theorem dyn_cast_scalar_classes
  (T U : FundamentalType) (x : IntLambdaArgument.t T) :
  (isa (IntLambdaArgument_ID U) (IntArg T x) = true <-> T = U)
  /\ dyn_cast (EIntLambdaArgument_ID U) (IntArg T x) = None
  /\ (isa (IntLambdaArgument_ID U) (EIntArg T x) = true <-> T = U)
  /\ (isa (EIntLambdaArgument_ID U) (EIntArg T x) = true <-> T = U).
Proof.
  unfold dyn_cast, isa, isA, EIntLambdaArgument_isA, IntLambdaArgument_isA,
    LambdaArgument_isA, RTTIRoot_isA.
  cbn [ClassID_eqb].
  rewrite !orb_false_r, ?orb_false_l.
  pose proof (FundamentalType_eqb_eq U T) as Heq.
  assert (Hiff : FundamentalType_eqb U T = true <-> T = U)
    by (rewrite Heq; split; congruence).
  split; [exact Hiff |]. split; [reflexivity |].
  split; [exact Hiff |].
  rewrite <- Hiff. destruct (FundamentalType_eqb U T); cbn; tauto.
Qed.

(** X23: a cast to a tensor class succeeds exactly on a tensor of the
    same scalar argument type (so tensors of plain and of encrypted
    scalars, and tensors over different backing types, are told apart),
    and never on a scalar; a cast to a scalar class never succeeds on a
    tensor. *)
Theorem dyn_cast_tensor_classes
  (Sc Sc' : ScalarArgumentT) (y : TensorLambdaArgument.t Sc)
  (T U : FundamentalType) (x : IntLambdaArgument.t T) :
  (isa (TensorLambdaArgument_ID Sc') (TensorArg Sc y) = true <-> Sc = Sc')
  /\ dyn_cast (TensorLambdaArgument_ID Sc') (IntArg T x) = None
  /\ dyn_cast (TensorLambdaArgument_ID Sc') (EIntArg T x) = None
  /\ dyn_cast (IntLambdaArgument_ID U) (TensorArg Sc y) = None
  /\ dyn_cast (EIntLambdaArgument_ID U) (TensorArg Sc y) = None.
Proof.
  split.
  - unfold isa, isA, TensorLambdaArgument_isA, LambdaArgument_isA,
      RTTIRoot_isA.
    cbn [ClassID_eqb].
    rewrite !orb_false_r, ScalarArgumentT_eqb_eq. split; congruence.
  - repeat split; unfold dyn_cast, isa; cbn; now rewrite ?orb_false_r.
Qed.

(** ** The resolver of type names *)

(** One step of the recursion over the pack of backing types. *)
Lemma LambdaArgumentTypeName_cons
  (T : FundamentalType) (Ts : list FundamentalType) (arg : LambdaArgument) :
  LambdaArgumentTypeName (T :: Ts) arg =
    if FundamentalType_eqb (backing_type arg) T
    then Some (rendered_name arg)
    else LambdaArgumentTypeName Ts arg.
Proof.
  destruct arg as [U x | U x | [U | U] y]; destruct T, U; reflexivity.
Qed.

(** X24: over any pack of backing types the resolver answers exactly
    when the backing type of the argument occurs in the pack, and the
    answer does not depend on where it occurs or on the other members:
    the bare name for a plain or an encrypted scalar, the name wrapped
    in ["tensor<...>"] or ["tensor<encrypted ...>"] for a tensor.
    Otherwise the recursion reaches the empty pack and its failed
    assertion. *)
Theorem LambdaArgumentTypeName_pack
  (Ts : list FundamentalType) (arg : LambdaArgument) :
  LambdaArgumentTypeName Ts arg =
    if existsb (FundamentalType_eqb (backing_type arg)) Ts
    then Some (rendered_name arg)
    else None.
Proof.
  induction Ts as [| T Ts IH]; [reflexivity |].
  rewrite LambdaArgumentTypeName_cons. cbn [existsb].
  destruct (FundamentalType_eqb (backing_type arg) T); [reflexivity |].
  exact IH.
Qed.

Lemma getLambdaArgumentTypeAsString_rendered (arg : LambdaArgument) :
  getLambdaArgumentTypeAsString arg = Some (rendered_name arg).
Proof.
  unfold getLambdaArgumentTypeAsString.
  rewrite !LambdaArgumentTypeName_cons.
  now destruct (backing_type arg).
Qed.

(** X25: two arguments over the backing types of the pack are given
    the same name exactly when they have the same backing type and are
    both scalars (plain or encrypted), both tensors of plain scalars or
    both tensors of encrypted scalars. *)
Theorem getLambdaArgumentTypeAsString_same_name (a b : LambdaArgument) :
  getLambdaArgumentTypeAsString a = getLambdaArgumentTypeAsString b
  <-> backing_type a = backing_type b /\ rendering a = rendering b.
Proof.
  rewrite !getLambdaArgumentTypeAsString_rendered.
  unfold rendered_name.
  destruct (rendering a), (rendering b), (backing_type a), (backing_type b);
    (split;
     [ intros H; first [discriminate H | split; reflexivity]
     | intros [H1 H2]; first [discriminate H1 | discriminate H2 | reflexivity] ]).
Qed.
